(** * Epilogue visitor fusion tree (sm90_visitor_tma_warpspecialized.hpp)

    A shallow embedding of the composite visitor nodes of
    [cutlass::epilogue::fusion]: the host-side API of [Sm90VisitorImplBase]
    (generic variadic form and the 1/2/3/4-operand specializations), the
    runtime queries of [Sm90VisitorImpl], the callback bundles, and the
    [visit] callbacks of the tree, split-tree and topological visitors.
    Two smaller developments follow: the problem sizes and operand blocks of
    the grouped GEMM example, and the alignment assertion of
    [as_position_independent_swizzle_tensor]. *)

From Stdlib Require Import PeanoNat NArith ZArith List Bool Lia.
Import ListNotations.

Local Open Scope N_scope.

(** ** Machine data *)

(** [size_t] is a 64-bit unsigned integer: arithmetic wraps modulo [2^64]. *)
Definition size_t := N.
Definition size_modulus : N := 2 ^ 64.
Definition wrap (x : N) : size_t := x mod size_modulus.
Definition size_add (a b : size_t) : size_t := wrap (a + b).

(** [uint8_t*] is a byte address; [p + n] is taken in the 64-bit address
    space. *)
Definition ptr := N.
Definition nullptr : ptr := 0.
Definition ptr_add (p : ptr) (n : size_t) : ptr := wrap (p + n).

(** Modelled from the spec: [round_nearest] lives in cutlass/fast_math.h, which
    is not among the sources at hand.  It rounds a size up to the next
    multiple of the alignment, [((dividend + divisor - 1) / divisor) * divisor],
    evaluated in [size_t]. *)
Definition round_nearest (dividend : size_t) (divisor : N) : size_t :=
  wrap (wrap (dividend + divisor - 1) / divisor * divisor).

(** Modelled from the spec: [cutlass::Status] is declared in cutlass/cutlass.h,
    which is not among the sources at hand.  The visitor only compares a
    status with [kSuccess]; the remaining enumerators are kept as a numbered
    family. *)
Inductive Status : Type :=
| kSuccess
| kError (code : N).

Definition Status_eqb (a b : Status) : bool :=
  match a, b with
  | kSuccess, kSuccess => true
  | kError m, kError n => N.eqb m n
  | _, _ => false
  end.

Lemma Status_eqb_eq (a b : Status) : Status_eqb a b = true <-> a = b.
Proof.
  destruct a as [|m], b as [|n]; simpl; split; intro H;
    try reflexivity; try discriminate.
  - apply N.eqb_eq in H. now subst.
  - injection H as ->. apply N.eqb_refl.
Qed.

(** ** Host-side API *)

Section HostApi.

(** Template parameter of every host function. *)
Variable ProblemShape : Type.
(** Opaque handles passed through to the children. *)
Variable cudaStream_t : Type.
Variable CudaHostAdapter : Type.
(** What [initialize_workspace] acts on: the device memory behind the
    workspace pointer. *)
Variable Device : Type.
(** The constant of cutlass/workspace.h (not among the sources at hand). *)
Variable MinWorkspaceAlignment : N.

(** The static interface every fusion node class provides. *)
Record Op : Type := {
  Arguments : Type;
  Params : Type;
  to_underlying_arguments : ProblemShape -> Arguments -> ptr -> Params;
  can_implement : ProblemShape -> Arguments -> bool;
  get_workspace_size : ProblemShape -> Arguments -> size_t;
  initialize_workspace :
    ProblemShape -> Arguments -> ptr -> cudaStream_t ->
    option CudaHostAdapter -> Device -> Status * Device
}.

(** [tuple<typename Ops::F...>] *)
Fixpoint tuple (F : Op -> Type) (ops : list Op) : Type :=
  match ops with
  | [] => unit
  | op :: ops' => (F op * tuple F ops')%type
  end.

Fixpoint tuple_to_list {T : Type} (ops : list Op)
  : tuple (fun _ => T) ops -> list T :=
  match ops with
  | [] => fun _ => []
  | _ :: ops' => fun t => fst t :: tuple_to_list ops' (snd t)
  end.

(** Modelled from the spec: [cute::transform_apply] (cute/algorithm) is not
    among the sources at hand.  [transform_apply(t0, t1, f, g)] calls [f] on
    the paired elements in declared order and hands all results to [g].
    The lambdas of the visitor capture local variables by reference; the
    captured variables are the threaded state [S]. *)
Fixpoint transform {S : Type} {R : Op -> Type}
    (f : forall op, Arguments op -> S -> R op * S) (ops : list Op)
  : tuple Arguments ops -> S -> tuple R ops * S :=
  match ops with
  | [] => fun _ s => (tt, s)
  | op :: ops' => fun args s =>
      let (r, s1) := f op (fst args) s in
      let (rs, s2) := transform f ops' (snd args) s1 in
      ((r, rs), s2)
  end.

Definition transform_apply {S : Type} {R : Op -> Type} {T : Type}
    (ops : list Op) (args : tuple Arguments ops)
    (f : forall op, Arguments op -> S -> R op * S)
    (g : tuple R ops -> S -> T) (s : S) : T :=
  let (rs, s') := transform f ops args s in g rs s'.

(** *** Generic form: [template <class... Ops> struct Sm90VisitorImplBase] *)

Definition to_underlying_arguments_N (ops : list Op)
    (problem_shape : ProblemShape) (args : tuple Arguments ops)
    (workspace : ptr) : tuple Params ops :=
  let op_workspace := workspace in
  transform_apply (R := Params) ops args
    (fun op op_args op_workspace =>
       let ret := to_underlying_arguments op problem_shape op_args op_workspace in
       let op_workspace :=
         if negb (op_workspace =? nullptr) then
           let op_workspace_size := get_workspace_size op problem_shape op_args in
           ptr_add op_workspace (round_nearest op_workspace_size MinWorkspaceAlignment)
         else op_workspace in
       (ret, op_workspace))
    (fun op_params _ => op_params)
    op_workspace.

Definition can_implement_N (ops : list Op)
    (problem_shape : ProblemShape) (args : tuple Arguments ops) : bool :=
  transform_apply (R := fun _ => bool) ops args
    (fun op op_args (_ : unit) => (can_implement op problem_shape op_args, tt))
    (fun implementable _ => fold_left andb (tuple_to_list ops implementable) true)
    tt.

Definition get_workspace_size_N (ops : list Op)
    (problem_shape : ProblemShape) (args : tuple Arguments ops) : size_t :=
  transform_apply (R := fun _ => size_t) ops args
    (fun op op_args (_ : unit) =>
       let op_workspace_size := get_workspace_size op problem_shape op_args in
       (round_nearest op_workspace_size MinWorkspaceAlignment, tt))
    (fun op_workspace_size _ =>
       fold_left size_add (tuple_to_list ops op_workspace_size) 0)
    tt.

Definition initialize_workspace_N (ops : list Op)
    (problem_shape : ProblemShape) (args : tuple Arguments ops)
    (workspace : ptr) (stream : cudaStream_t)
    (cuda_adapter : option CudaHostAdapter) (dev : Device) : Status * Device :=
  let status := kSuccess in
  let op_workspace := workspace in
  transform_apply (R := fun _ => Status) ops args
    (fun op op_args '(status, op_workspace, dev) =>
       if negb (Status_eqb status kSuccess) then
         (status, (status, op_workspace, dev))
       else
         let (status, dev) :=
           initialize_workspace op problem_shape op_args op_workspace
             stream cuda_adapter dev in
         let op_workspace :=
           if negb (op_workspace =? nullptr) then
             let op_workspace_size := get_workspace_size op problem_shape op_args in
             ptr_add op_workspace (round_nearest op_workspace_size MinWorkspaceAlignment)
           else op_workspace in
         (status, (status, op_workspace, dev)))
    (fun _ '(status, _, dev) => (status, dev))
    (status, op_workspace, dev).

(** *** Specializations for one to four operands

    The specializations replace the [Arguments] and [Params] tuples by
    aggregates [struct { op_0; op_1; ... }] with the same members in the
    same order; the members are read with [op_0] ... [op_3]. *)

Definition op_0 {F : Op -> Type} {Op0 : Op} {ops : list Op}
    (t : tuple F (Op0 :: ops)) : F Op0 := fst t.
Definition op_1 {F : Op -> Type} {Op0 Op1 : Op} {ops : list Op}
    (t : tuple F (Op0 :: Op1 :: ops)) : F Op1 := fst (snd t).
Definition op_2 {F : Op -> Type} {Op0 Op1 Op2 : Op} {ops : list Op}
    (t : tuple F (Op0 :: Op1 :: Op2 :: ops)) : F Op2 := fst (snd (snd t)).
Definition op_3 {F : Op -> Type} {Op0 Op1 Op2 Op3 : Op} {ops : list Op}
    (t : tuple F (Op0 :: Op1 :: Op2 :: Op3 :: ops)) : F Op3 :=
  fst (snd (snd (snd t))).

(** [Sm90VisitorImplBase<Op0>] *)

Definition to_underlying_arguments_1 (Op0 : Op)
    (problem_shape : ProblemShape) (args : tuple Arguments [Op0])
    (workspace : ptr) : tuple Params [Op0] :=
  (to_underlying_arguments Op0 problem_shape (op_0 args) workspace, tt).

Definition can_implement_1 (Op0 : Op)
    (problem_shape : ProblemShape) (args : tuple Arguments [Op0]) : bool :=
  can_implement Op0 problem_shape (op_0 args).

Definition get_workspace_size_1 (Op0 : Op)
    (problem_shape : ProblemShape) (args : tuple Arguments [Op0]) : size_t :=
  let workspace_size := 0 in
  let workspace_size := size_add workspace_size (get_workspace_size Op0 problem_shape (op_0 args)) in
  let workspace_size := round_nearest workspace_size MinWorkspaceAlignment in
  workspace_size.

Definition initialize_workspace_1 (Op0 : Op)
    (problem_shape : ProblemShape) (args : tuple Arguments [Op0])
    (workspace : ptr) (stream : cudaStream_t)
    (cuda_adapter : option CudaHostAdapter) (dev : Device) : Status * Device :=
  let workspace_ptr := workspace in
  let workspace_offset := 0 in
  let (status, dev) :=
    initialize_workspace Op0 problem_shape (op_0 args)
      (ptr_add workspace_ptr workspace_offset) stream cuda_adapter dev in
  let workspace_offset := size_add workspace_offset (get_workspace_size Op0 problem_shape (op_0 args)) in
  let workspace_offset := round_nearest workspace_offset MinWorkspaceAlignment in
  if negb (Status_eqb status kSuccess) then (status, dev) else
  (status, dev).

(** [Sm90VisitorImplBase<Op0, Op1>] *)

Definition to_underlying_arguments_2 (Op0 Op1 : Op)
    (problem_shape : ProblemShape) (args : tuple Arguments [Op0; Op1])
    (workspace : ptr) : tuple Params [Op0; Op1] :=
  let op_0_workspace_size := get_workspace_size Op0 problem_shape (op_0 args) in
  let op_0_workspace := workspace in
  let op_1_workspace := ptr_add op_0_workspace op_0_workspace_size in
  (to_underlying_arguments Op0 problem_shape (op_0 args) op_0_workspace,
   (to_underlying_arguments Op1 problem_shape (op_1 args) op_1_workspace, tt)).

Definition can_implement_2 (Op0 Op1 : Op)
    (problem_shape : ProblemShape) (args : tuple Arguments [Op0; Op1]) : bool :=
  can_implement Op0 problem_shape (op_0 args) &&
  can_implement Op1 problem_shape (op_1 args).

Definition get_workspace_size_2 (Op0 Op1 : Op)
    (problem_shape : ProblemShape) (args : tuple Arguments [Op0; Op1]) : size_t :=
  let workspace_size := 0 in
  let workspace_size := size_add workspace_size (get_workspace_size Op0 problem_shape (op_0 args)) in
  let workspace_size := round_nearest workspace_size MinWorkspaceAlignment in
  let workspace_size := size_add workspace_size (get_workspace_size Op1 problem_shape (op_1 args)) in
  let workspace_size := round_nearest workspace_size MinWorkspaceAlignment in
  workspace_size.

Definition initialize_workspace_2 (Op0 Op1 : Op)
    (problem_shape : ProblemShape) (args : tuple Arguments [Op0; Op1])
    (workspace : ptr) (stream : cudaStream_t)
    (cuda_adapter : option CudaHostAdapter) (dev : Device) : Status * Device :=
  let workspace_ptr := workspace in
  let workspace_offset := 0 in
  let (status, dev) :=
    initialize_workspace Op0 problem_shape (op_0 args)
      (ptr_add workspace_ptr workspace_offset) stream cuda_adapter dev in
  let workspace_offset := size_add workspace_offset (get_workspace_size Op0 problem_shape (op_0 args)) in
  let workspace_offset := round_nearest workspace_offset MinWorkspaceAlignment in
  if negb (Status_eqb status kSuccess) then (status, dev) else
  let (status, dev) :=
    initialize_workspace Op1 problem_shape (op_1 args)
      (ptr_add workspace_ptr workspace_offset) stream cuda_adapter dev in
  let workspace_offset := size_add workspace_offset (get_workspace_size Op1 problem_shape (op_1 args)) in
  let workspace_offset := round_nearest workspace_offset MinWorkspaceAlignment in
  if negb (Status_eqb status kSuccess) then (status, dev) else
  (status, dev).

(** [Sm90VisitorImplBase<Op0, Op1, Op2>] *)

Definition to_underlying_arguments_3 (Op0 Op1 Op2 : Op)
    (problem_shape : ProblemShape) (args : tuple Arguments [Op0; Op1; Op2])
    (workspace : ptr) : tuple Params [Op0; Op1; Op2] :=
  let op_0_workspace_size := get_workspace_size Op0 problem_shape (op_0 args) in
  let op_1_workspace_size := get_workspace_size Op1 problem_shape (op_1 args) in
  let op_0_workspace := workspace in
  let op_1_workspace := ptr_add op_0_workspace op_0_workspace_size in
  let op_2_workspace := ptr_add op_1_workspace op_1_workspace_size in
  (to_underlying_arguments Op0 problem_shape (op_0 args) op_0_workspace,
   (to_underlying_arguments Op1 problem_shape (op_1 args) op_1_workspace,
   (to_underlying_arguments Op2 problem_shape (op_2 args) op_2_workspace, tt))).

Definition can_implement_3 (Op0 Op1 Op2 : Op)
    (problem_shape : ProblemShape) (args : tuple Arguments [Op0; Op1; Op2]) : bool :=
  can_implement Op0 problem_shape (op_0 args) &&
  can_implement Op1 problem_shape (op_1 args) &&
  can_implement Op2 problem_shape (op_2 args).

Definition get_workspace_size_3 (Op0 Op1 Op2 : Op)
    (problem_shape : ProblemShape) (args : tuple Arguments [Op0; Op1; Op2]) : size_t :=
  let workspace_size := 0 in
  let workspace_size := size_add workspace_size (get_workspace_size Op0 problem_shape (op_0 args)) in
  let workspace_size := round_nearest workspace_size MinWorkspaceAlignment in
  let workspace_size := size_add workspace_size (get_workspace_size Op1 problem_shape (op_1 args)) in
  let workspace_size := round_nearest workspace_size MinWorkspaceAlignment in
  let workspace_size := size_add workspace_size (get_workspace_size Op2 problem_shape (op_2 args)) in
  let workspace_size := round_nearest workspace_size MinWorkspaceAlignment in
  workspace_size.

Definition initialize_workspace_3 (Op0 Op1 Op2 : Op)
    (problem_shape : ProblemShape) (args : tuple Arguments [Op0; Op1; Op2])
    (workspace : ptr) (stream : cudaStream_t)
    (cuda_adapter : option CudaHostAdapter) (dev : Device) : Status * Device :=
  let workspace_ptr := workspace in
  let workspace_offset := 0 in
  let (status, dev) :=
    initialize_workspace Op0 problem_shape (op_0 args)
      (ptr_add workspace_ptr workspace_offset) stream cuda_adapter dev in
  let workspace_offset := size_add workspace_offset (get_workspace_size Op0 problem_shape (op_0 args)) in
  let workspace_offset := round_nearest workspace_offset MinWorkspaceAlignment in
  if negb (Status_eqb status kSuccess) then (status, dev) else
  let (status, dev) :=
    initialize_workspace Op1 problem_shape (op_1 args)
      (ptr_add workspace_ptr workspace_offset) stream cuda_adapter dev in
  let workspace_offset := size_add workspace_offset (get_workspace_size Op1 problem_shape (op_1 args)) in
  let workspace_offset := round_nearest workspace_offset MinWorkspaceAlignment in
  if negb (Status_eqb status kSuccess) then (status, dev) else
  let (status, dev) :=
    initialize_workspace Op2 problem_shape (op_2 args)
      (ptr_add workspace_ptr workspace_offset) stream cuda_adapter dev in
  let workspace_offset := size_add workspace_offset (get_workspace_size Op2 problem_shape (op_2 args)) in
  let workspace_offset := round_nearest workspace_offset MinWorkspaceAlignment in
  if negb (Status_eqb status kSuccess) then (status, dev) else
  (status, dev).

(** [Sm90VisitorImplBase<Op0, Op1, Op2, Op3>] *)

Definition to_underlying_arguments_4 (Op0 Op1 Op2 Op3 : Op)
    (problem_shape : ProblemShape) (args : tuple Arguments [Op0; Op1; Op2; Op3])
    (workspace : ptr) : tuple Params [Op0; Op1; Op2; Op3] :=
  let op_0_workspace_size := get_workspace_size Op0 problem_shape (op_0 args) in
  let op_1_workspace_size := get_workspace_size Op1 problem_shape (op_1 args) in
  let op_2_workspace_size := get_workspace_size Op2 problem_shape (op_2 args) in
  let op_0_workspace := workspace in
  let op_1_workspace := ptr_add op_0_workspace op_0_workspace_size in
  let op_2_workspace := ptr_add op_1_workspace op_1_workspace_size in
  let op_3_workspace := ptr_add op_2_workspace op_2_workspace_size in
  (to_underlying_arguments Op0 problem_shape (op_0 args) op_0_workspace,
   (to_underlying_arguments Op1 problem_shape (op_1 args) op_1_workspace,
   (to_underlying_arguments Op2 problem_shape (op_2 args) op_2_workspace,
   (to_underlying_arguments Op3 problem_shape (op_3 args) op_3_workspace, tt)))).

Definition can_implement_4 (Op0 Op1 Op2 Op3 : Op)
    (problem_shape : ProblemShape) (args : tuple Arguments [Op0; Op1; Op2; Op3]) : bool :=
  can_implement Op0 problem_shape (op_0 args) &&
  can_implement Op1 problem_shape (op_1 args) &&
  can_implement Op2 problem_shape (op_2 args) &&
  can_implement Op3 problem_shape (op_3 args).

Definition get_workspace_size_4 (Op0 Op1 Op2 Op3 : Op)
    (problem_shape : ProblemShape) (args : tuple Arguments [Op0; Op1; Op2; Op3]) : size_t :=
  let workspace_size := 0 in
  let workspace_size := size_add workspace_size (get_workspace_size Op0 problem_shape (op_0 args)) in
  let workspace_size := round_nearest workspace_size MinWorkspaceAlignment in
  let workspace_size := size_add workspace_size (get_workspace_size Op1 problem_shape (op_1 args)) in
  let workspace_size := round_nearest workspace_size MinWorkspaceAlignment in
  let workspace_size := size_add workspace_size (get_workspace_size Op2 problem_shape (op_2 args)) in
  let workspace_size := round_nearest workspace_size MinWorkspaceAlignment in
  let workspace_size := size_add workspace_size (get_workspace_size Op3 problem_shape (op_3 args)) in
  let workspace_size := round_nearest workspace_size MinWorkspaceAlignment in
  workspace_size.

Definition initialize_workspace_4 (Op0 Op1 Op2 Op3 : Op)
    (problem_shape : ProblemShape) (args : tuple Arguments [Op0; Op1; Op2; Op3])
    (workspace : ptr) (stream : cudaStream_t)
    (cuda_adapter : option CudaHostAdapter) (dev : Device) : Status * Device :=
  let workspace_ptr := workspace in
  let workspace_offset := 0 in
  let (status, dev) :=
    initialize_workspace Op0 problem_shape (op_0 args)
      (ptr_add workspace_ptr workspace_offset) stream cuda_adapter dev in
  let workspace_offset := size_add workspace_offset (get_workspace_size Op0 problem_shape (op_0 args)) in
  let workspace_offset := round_nearest workspace_offset MinWorkspaceAlignment in
  if negb (Status_eqb status kSuccess) then (status, dev) else
  let (status, dev) :=
    initialize_workspace Op1 problem_shape (op_1 args)
      (ptr_add workspace_ptr workspace_offset) stream cuda_adapter dev in
  let workspace_offset := size_add workspace_offset (get_workspace_size Op1 problem_shape (op_1 args)) in
  let workspace_offset := round_nearest workspace_offset MinWorkspaceAlignment in
  if negb (Status_eqb status kSuccess) then (status, dev) else
  let (status, dev) :=
    initialize_workspace Op2 problem_shape (op_2 args)
      (ptr_add workspace_ptr workspace_offset) stream cuda_adapter dev in
  let workspace_offset := size_add workspace_offset (get_workspace_size Op2 problem_shape (op_2 args)) in
  let workspace_offset := round_nearest workspace_offset MinWorkspaceAlignment in
  if negb (Status_eqb status kSuccess) then (status, dev) else
  let (status, dev) :=
    initialize_workspace Op3 problem_shape (op_3 args)
      (ptr_add workspace_ptr workspace_offset) stream cuda_adapter dev in
  let workspace_offset := size_add workspace_offset (get_workspace_size Op3 problem_shape (op_3 args)) in
  let workspace_offset := round_nearest workspace_offset MinWorkspaceAlignment in
  if negb (Status_eqb status kSuccess) then (status, dev) else
  (status, dev).

(** *** Selection of the form by the number of operands

    The compiler picks a specialization for one to four operands and the
    generic form otherwise (no operand, or five and more). *)

Definition to_underlying_arguments_impl (ops : list Op) : ProblemShape -> tuple Arguments ops -> ptr -> tuple Params ops :=
  match ops as l return ProblemShape -> tuple Arguments l -> ptr -> tuple Params l with
  | [Op0] => to_underlying_arguments_1 Op0
  | [Op0; Op1] => to_underlying_arguments_2 Op0 Op1
  | [Op0; Op1; Op2] => to_underlying_arguments_3 Op0 Op1 Op2
  | [Op0; Op1; Op2; Op3] => to_underlying_arguments_4 Op0 Op1 Op2 Op3
  | l => to_underlying_arguments_N l
  end.

Definition can_implement_impl (ops : list Op) : ProblemShape -> tuple Arguments ops -> bool :=
  match ops as l return ProblemShape -> tuple Arguments l -> bool with
  | [Op0] => can_implement_1 Op0
  | [Op0; Op1] => can_implement_2 Op0 Op1
  | [Op0; Op1; Op2] => can_implement_3 Op0 Op1 Op2
  | [Op0; Op1; Op2; Op3] => can_implement_4 Op0 Op1 Op2 Op3
  | l => can_implement_N l
  end.

Definition get_workspace_size_impl (ops : list Op) : ProblemShape -> tuple Arguments ops -> size_t :=
  match ops as l return ProblemShape -> tuple Arguments l -> size_t with
  | [Op0] => get_workspace_size_1 Op0
  | [Op0; Op1] => get_workspace_size_2 Op0 Op1
  | [Op0; Op1; Op2] => get_workspace_size_3 Op0 Op1 Op2
  | [Op0; Op1; Op2; Op3] => get_workspace_size_4 Op0 Op1 Op2 Op3
  | l => get_workspace_size_N l
  end.

Definition initialize_workspace_impl (ops : list Op) : ProblemShape -> tuple Arguments ops -> ptr -> cudaStream_t ->
    option CudaHostAdapter -> Device -> Status * Device :=
  match ops as l return ProblemShape -> tuple Arguments l -> ptr -> cudaStream_t ->
    option CudaHostAdapter -> Device -> Status * Device with
  | [Op0] => initialize_workspace_1 Op0
  | [Op0; Op1] => initialize_workspace_2 Op0 Op1
  | [Op0; Op1; Op2] => initialize_workspace_3 Op0 Op1 Op2
  | [Op0; Op1; Op2; Op3] => initialize_workspace_4 Op0 Op1 Op2 Op3
  | l => initialize_workspace_N l
  end.

Definition Sm90VisitorImplBase (ops : list Op) : Op := {|
  Arguments := tuple Arguments ops;
  Params := tuple Params ops;
  to_underlying_arguments := to_underlying_arguments_impl ops;
  can_implement := can_implement_impl ops;
  get_workspace_size := get_workspace_size_impl ops;
  initialize_workspace := initialize_workspace_impl ops
|}.

(** The host API of [Sm90VisitorImpl] and of the three visitors is inherited
    from [Sm90VisitorImplBase]; only the order of the operands differs. *)
Definition Sm90VisitorImpl (ops : list Op) : Op := Sm90VisitorImplBase ops.

Definition Sm90TreeVisitor (NodeOp : Op) (ChildOps : list Op) : Op :=
  Sm90VisitorImpl (ChildOps ++ [NodeOp]).

Definition Sm90SplitTreeVisitor (InputTree OutputTree : Op)
    (AuxOutTrees : list Op) : Op :=
  Sm90VisitorImpl (InputTree :: AuxOutTrees ++ [OutputTree]).

Definition Sm90TopologicalVisitor (ops : list Op) : Op := Sm90VisitorImpl ops.

(** *** What the children are handed

    The composite never looks inside a child's [Params]; to speak about the
    workspace pointer a child receives, the composite is run with every child
    replaced by a [probe]: the same class, except that its [Params] is the
    workspace pointer it was handed. *)

Definition probe (op : Op) : Op := {|
  Arguments := Arguments op;
  Params := ptr;
  to_underlying_arguments := fun _ _ workspace => workspace;
  can_implement := can_implement op;
  get_workspace_size := get_workspace_size op;
  initialize_workspace := initialize_workspace op
|}.

Fixpoint probe_args (ops : list Op)
  : tuple Arguments ops -> tuple Arguments (map probe ops) :=
  match ops with
  | [] => fun _ => tt
  | _ :: ops' => fun args => (fst args, probe_args ops' (snd args))
  end.

Fixpoint probe_params (ops : list Op)
  : tuple Params (map probe ops) -> list ptr :=
  match ops with
  | [] => fun _ => []
  | _ :: ops' => fun params => fst params :: probe_params ops' (snd params)
  end.

(** The workspace pointers [to_underlying_arguments] hands to the children,
    in declared order. *)
Definition child_workspaces (ops : list Op) (problem_shape : ProblemShape)
    (args : tuple Arguments ops) (workspace : ptr) : list ptr :=
  probe_params ops
    (to_underlying_arguments (Sm90VisitorImplBase (map probe ops))
       problem_shape (probe_args ops args) workspace).

(** Each child's own workspace requirement, in declared order. *)
Fixpoint child_sizes (ops : list Op) (problem_shape : ProblemShape)
  : tuple Arguments ops -> list size_t :=
  match ops with
  | [] => fun _ => []
  | op :: ops' => fun args =>
      get_workspace_size op problem_shape (fst args)
        :: child_sizes ops' problem_shape (snd args)
  end.

(** The children's own [Params], child [i] resolved against the [i]-th
    pointer of [workspaces]. *)
Fixpoint children_params (ops : list Op) (problem_shape : ProblemShape)
  : tuple Arguments ops -> list ptr -> tuple Params ops :=
  match ops with
  | [] => fun _ _ => tt
  | op :: ops' => fun args workspaces =>
      (to_underlying_arguments op problem_shape (fst args) (hd nullptr workspaces),
       children_params ops' problem_shape (snd args) (tl workspaces))
  end.

(** Each child's own feasibility check on its own sub-arguments. *)
Fixpoint children_can_implement (ops : list Op) (problem_shape : ProblemShape)
  : tuple Arguments ops -> list bool :=
  match ops with
  | [] => fun _ => []
  | op :: ops' => fun args =>
      can_implement op problem_shape (fst args)
        :: children_can_implement ops' problem_shape (snd args)
  end.

(** Each child's own initialization, child [i] on the [i]-th pointer of
    [workspaces]. *)
Fixpoint children_initialize (ops : list Op) (problem_shape : ProblemShape)
    (stream : cudaStream_t) (cuda_adapter : option CudaHostAdapter)
  : tuple Arguments ops -> list ptr -> list (Device -> Status * Device) :=
  match ops with
  | [] => fun _ _ => []
  | op :: ops' => fun args workspaces =>
      initialize_workspace op problem_shape (fst args) (hd nullptr workspaces)
        stream cuda_adapter
        :: children_initialize ops' problem_shape stream cuda_adapter
             (snd args) (tl workspaces)
  end.

(** The initialization chain in the spec's words: the children run in
    declared order, the chain halts at the first status that is not
    [kSuccess] and returns it, leaving the device as that child left it; when
    every child succeeds the result is [kSuccess]. *)
Fixpoint fail_fast (calls : list (Device -> Status * Device)) (dev : Device)
  : Status * Device :=
  match calls with
  | [] => (kSuccess, dev)
  | call :: calls' =>
      let (status, dev') := call dev in
      if Status_eqb status kSuccess then fail_fast calls' dev'
      else (status, dev')
  end.

(** The specializations exist for one to four operands. *)
Definition specialized (ops : list Op) : bool :=
  match ops with
  | [_] | [_; _] | [_; _; _] | [_; _; _; _] => true
  | _ => false
  end.

(** The pointer sequence of the generic form: a running pointer, advanced
    by the rounded size of each child unless it is null. *)
Fixpoint running_workspaces (ops : list Op) (problem_shape : ProblemShape)
  : tuple Arguments ops -> ptr -> list ptr :=
  match ops with
  | [] => fun _ _ => []
  | op :: ops' => fun args op_workspace =>
      op_workspace
        :: running_workspaces ops' problem_shape (snd args)
             (if negb (op_workspace =? nullptr) then
                ptr_add op_workspace
                  (round_nearest (get_workspace_size op problem_shape (fst args))
                     MinWorkspaceAlignment)
              else op_workspace)
  end.

(** The pointer sequence of the specialized [initialize_workspace]: the base
    pointer plus a running offset, rounded after each child. *)
Fixpoint offset_workspaces (ops : list Op) (problem_shape : ProblemShape)
  : tuple Arguments ops -> ptr -> size_t -> list ptr :=
  match ops with
  | [] => fun _ _ _ => []
  | op :: ops' => fun args workspace_ptr workspace_offset =>
      ptr_add workspace_ptr workspace_offset
        :: offset_workspaces ops' problem_shape (snd args) workspace_ptr
             (round_nearest
                (size_add workspace_offset
                   (get_workspace_size op problem_shape (fst args)))
                MinWorkspaceAlignment)
  end.

(** The workspace pointers [initialize_workspace] hands to the children. *)
Definition initialize_workspaces (ops : list Op) (problem_shape : ProblemShape)
    (args : tuple Arguments ops) (workspace : ptr) : list ptr :=
  if specialized ops then offset_workspaces ops problem_shape args workspace 0
  else running_workspaces ops problem_shape args workspace.

(** *** The layout in exact arithmetic *)

(** The least multiple of the alignment that is not below [x]. *)
Definition round_up (x : N) : N :=
  (x + MinWorkspaceAlignment - 1) / MinWorkspaceAlignment * MinWorkspaceAlignment.

(** Bytes covered by the children, each rounded up to the alignment. *)
Definition workspace_extent (sizes : list size_t) : N :=
  fold_right (fun size rest => round_up size + rest) 0 sizes.

(** Start offsets of consecutive regions of the given strides. *)
Fixpoint prefix_offsets (start : N) (strides : list N) : list N :=
  match strides with
  | [] => []
  | stride :: strides' => start :: prefix_offsets (start + stride) strides'
  end.

(** A buffer at [workspace] large enough for the children lies inside the
    64-bit address space; the pointer may be null when the children need no
    byte at all. *)
Definition buffer_fits (workspace : ptr) (sizes : list size_t) : Prop :=
  (workspace <> nullptr \/ workspace_extent sizes = 0) /\
  workspace + workspace_extent sizes < size_modulus.

(** A region is a start address and a byte count. *)
Definition region_within (workspace : ptr) (len : N) (r : ptr * size_t) : Prop :=
  workspace <= fst r /\ fst r + snd r <= workspace + len.

Definition regions_disjoint (r1 r2 : ptr * size_t) : Prop :=
  fst r1 + snd r1 <= fst r2 \/ fst r2 + snd r2 <= fst r1.

(** The pointer sequence of the specialized [to_underlying_arguments]: each
    pointer is the previous one plus the previous child's own size. *)
Fixpoint chained_workspaces (ops : list Op) (problem_shape : ProblemShape)
  : tuple Arguments ops -> ptr -> list ptr :=
  match ops with
  | [] => fun _ _ => []
  | op :: ops' => fun args op_workspace =>
      op_workspace
        :: chained_workspaces ops' problem_shape (snd args)
             (ptr_add op_workspace (get_workspace_size op problem_shape (fst args)))
  end.

(** The running size of the specializations: add a child, round, repeat. *)
Definition accumulate_sizes (sizes : list size_t) (workspace_size : size_t) : size_t :=
  fold_left
    (fun workspace_size size =>
       round_nearest (size_add workspace_size size) MinWorkspaceAlignment)
    sizes workspace_size.

(** The strides between consecutive children: the child's own size in the
    specializations, its rounded size in the generic form. *)
Definition child_strides (ops : list Op) (problem_shape : ProblemShape)
    (args : tuple Arguments ops) : list N :=
  if specialized ops then child_sizes ops problem_shape args
  else map round_up (child_sizes ops problem_shape args).

(** The alignment is a small power of two. *)
Definition valid_alignment : Prop :=
  exists k, k <= 64 /\ MinWorkspaceAlignment = 2 ^ k.

(** *** Arithmetic of the rounding *)

Lemma valid_alignment_pos : valid_alignment -> 0 < MinWorkspaceAlignment.
Proof.
  intros (k & _ & ->). apply N.neq_0_lt_0, N.pow_nonzero. discriminate.
Qed.

Lemma valid_alignment_divides :
  valid_alignment -> exists m, size_modulus = m * MinWorkspaceAlignment.
Proof.
  intros (k & Hk & ->). exists (2 ^ (64 - k)).
  unfold size_modulus. rewrite <- N.pow_add_r. f_equal. lia.
Qed.

Lemma round_up_spec (x : N) :
  0 < MinWorkspaceAlignment ->
  exists q, round_up x = q * MinWorkspaceAlignment /\
            x <= round_up x /\ round_up x < x + MinWorkspaceAlignment.
Proof.
  intro Ha. unfold round_up.
  generalize dependent MinWorkspaceAlignment. intros a Ha.
  exists ((x + a - 1) / a). split; [reflexivity|].
  pose proof (N.div_mod (x + a - 1) a ltac:(lia)) as Hdm.
  pose proof (N.mod_upper_bound (x + a - 1) a ltac:(lia)) as Hlt.
  rewrite (N.mul_comm a) in Hdm.
  generalize dependent ((x + a - 1) / a * a).
  generalize dependent ((x + a - 1) mod a). intros. lia.
Qed.

Lemma round_up_ge (x : N) : 0 < MinWorkspaceAlignment -> x <= round_up x.
Proof. intro Ha. destruct (round_up_spec x Ha) as (q & _ & H & _). exact H. Qed.

Lemma round_up_shift (k x : N) :
  0 < MinWorkspaceAlignment ->
  round_up (k * MinWorkspaceAlignment + x) = k * MinWorkspaceAlignment + round_up x.
Proof.
  intro Ha. unfold round_up.
  generalize dependent MinWorkspaceAlignment. intros a Ha.
  replace (k * a + x + a - 1) with (k * a + (x + a - 1)) by lia.
  rewrite N.div_add_l by lia. lia.
Qed.

Lemma wrap_small (x : N) : x < size_modulus -> wrap x = x.
Proof. intro H. unfold wrap. now apply N.mod_small. Qed.

Lemma round_nearest_exact (x : N) :
  valid_alignment -> round_up x < size_modulus ->
  round_nearest x MinWorkspaceAlignment = round_up x.
Proof.
  intros Hv Hlt.
  pose proof (valid_alignment_pos Hv) as Ha.
  destruct (valid_alignment_divides Hv) as (m & Hm).
  destruct (round_up_spec x Ha) as (q & Hq & Hge & Hub).
  assert (Hin : x + MinWorkspaceAlignment - 1 < size_modulus).
  { rewrite Hq, Hm in Hlt.
    assert (q < m) by nia.
    assert (q + 1 <= m) by lia.
    assert ((q + 1) * MinWorkspaceAlignment <= m * MinWorkspaceAlignment)
      by (apply N.mul_le_mono_r; assumption).
    lia. }
  unfold round_nearest. rewrite (wrap_small _ Hin).
  fold (round_up x). now apply wrap_small.
Qed.

Lemma workspace_extent_cons (size : size_t) (sizes : list size_t) :
  workspace_extent (size :: sizes) = round_up size + workspace_extent sizes.
Proof. reflexivity. Qed.

Lemma workspace_extent_multiple (sizes : list size_t) :
  exists q, workspace_extent sizes = q * MinWorkspaceAlignment.
Proof.
  induction sizes as [|size sizes (q & IH)].
  - exists 0. reflexivity.
  - rewrite workspace_extent_cons, IH. unfold round_up.
    eexists. rewrite <- N.mul_add_distr_r. reflexivity.
Qed.

(** *** The generic form, one operand at a time *)

Lemma to_underlying_arguments_N_cons (op : Op) (ops : list Op)
    (problem_shape : ProblemShape) (args : tuple Arguments (op :: ops))
    (workspace : ptr) :
  to_underlying_arguments_N (op :: ops) problem_shape args workspace =
  (to_underlying_arguments op problem_shape (fst args) workspace,
   to_underlying_arguments_N ops problem_shape (snd args)
     (if negb (workspace =? nullptr) then
        ptr_add workspace
          (round_nearest (get_workspace_size op problem_shape (fst args))
             MinWorkspaceAlignment)
      else workspace)).
Proof.
  unfold to_underlying_arguments_N, transform_apply. simpl.
  destruct (transform _ ops (snd args) _) as [rs s']. reflexivity.
Qed.

Lemma to_underlying_arguments_N_children (ops : list Op)
    (problem_shape : ProblemShape) (args : tuple Arguments ops) (workspace : ptr) :
  to_underlying_arguments_N ops problem_shape args workspace =
  children_params ops problem_shape args
    (running_workspaces ops problem_shape args workspace).
Proof.
  revert workspace. induction ops as [|op ops IH]; intro workspace.
  - destruct args. reflexivity.
  - rewrite to_underlying_arguments_N_cons. simpl. now rewrite IH.
Qed.

Lemma probe_running_workspaces (ops : list Op)
    (problem_shape : ProblemShape) (args : tuple Arguments ops) (workspace : ptr) :
  probe_params ops
    (to_underlying_arguments_N (map probe ops) problem_shape
       (probe_args ops args) workspace) =
  running_workspaces ops problem_shape args workspace.
Proof.
  revert workspace. induction ops as [|op ops IH]; intro workspace.
  - reflexivity.
  - simpl map. simpl probe_args. rewrite to_underlying_arguments_N_cons.
    simpl. now rewrite IH.
Qed.

Lemma can_implement_N_cons (op : Op) (ops : list Op)
    (problem_shape : ProblemShape) (args : tuple Arguments (op :: ops)) :
  can_implement_N (op :: ops) problem_shape args =
  can_implement op problem_shape (fst args)
  && can_implement_N ops problem_shape (snd args).
Proof.
  unfold can_implement_N, transform_apply. simpl.
  destruct (transform _ ops (snd args) tt) as [rs s']. simpl.
  generalize (tuple_to_list ops rs). intro l.
  destruct (can_implement op problem_shape (fst args)); [reflexivity|].
  simpl. induction l as [|b l IH]; [reflexivity | exact IH].
Qed.

Lemma fold_left_size_add (sizes : list size_t) (acc : N) :
  acc + fold_right N.add 0 sizes < size_modulus ->
  fold_left size_add sizes acc = acc + fold_right N.add 0 sizes.
Proof.
  revert acc. induction sizes as [|size sizes IH]; intros acc H; simpl in *.
  - lia.
  - unfold size_add at 2. rewrite wrap_small by lia.
    rewrite IH by lia. lia.
Qed.

Lemma get_workspace_size_N_sizes (ops : list Op)
    (problem_shape : ProblemShape) (args : tuple Arguments ops) :
  get_workspace_size_N ops problem_shape args =
  fold_left size_add
    (map (fun size => round_nearest size MinWorkspaceAlignment)
       (child_sizes ops problem_shape args)) 0.
Proof.
  unfold get_workspace_size_N, transform_apply.
  destruct (transform _ ops args tt) as [rs s'] eqn:E.
  f_equal. replace rs with (fst (transform (R := fun _ => size_t)
      (fun op op_args (_ : unit) =>
         (round_nearest (get_workspace_size op problem_shape op_args)
            MinWorkspaceAlignment, tt)) ops args tt))
    by (cbv zeta in E; now rewrite E).
  clear E rs s'. induction ops as [|op ops IH].
  - reflexivity.
  - simpl. specialize (IH (snd args)).
    destruct (transform _ ops (snd args) tt) as [rs s']. simpl in *.
    now rewrite IH.
Qed.

Lemma initialize_workspace_N_failed (ops : list Op)
    (problem_shape : ProblemShape) (args : tuple Arguments ops)
    (stream : cudaStream_t) (cuda_adapter : option CudaHostAdapter)
    (f := fun op op_args '(status, op_workspace, dev) =>
         if negb (Status_eqb status kSuccess) then
           (status, (status, op_workspace, dev))
         else
           let (status, dev) :=
             initialize_workspace op problem_shape op_args op_workspace
               stream cuda_adapter dev in
           let op_workspace :=
             if negb (op_workspace =? nullptr) then
               let op_workspace_size := get_workspace_size op problem_shape op_args in
               ptr_add op_workspace (round_nearest op_workspace_size MinWorkspaceAlignment)
             else op_workspace in
           (status, (status, op_workspace, dev)))
    (status : Status) (op_workspace : ptr) (dev : Device) :
  status <> kSuccess ->
  snd (transform (R := fun _ => Status) f ops args (status, op_workspace, dev)) =
  (status, op_workspace, dev).
Proof.
  intro Hne. induction ops as [|op ops IH].
  - reflexivity.
  - simpl. subst f. simpl.
    assert (E : Status_eqb status kSuccess = false).
    { destruct (Status_eqb status kSuccess) eqn:E; [|reflexivity].
      apply Status_eqb_eq in E. contradiction. }
    rewrite E. simpl. specialize (IH (snd args)).
    destruct (transform _ ops (snd args) _) as [rs s']. simpl in *. exact IH.
Qed.

Lemma initialize_workspace_N_chain (ops : list Op)
    (problem_shape : ProblemShape) (args : tuple Arguments ops)
    (workspace : ptr) (stream : cudaStream_t)
    (cuda_adapter : option CudaHostAdapter) (dev : Device) :
  initialize_workspace_N ops problem_shape args workspace stream cuda_adapter dev =
  fail_fast
    (children_initialize ops problem_shape stream cuda_adapter args
       (running_workspaces ops problem_shape args workspace)) dev.
Proof.
  unfold initialize_workspace_N, transform_apply.
  revert workspace dev. induction ops as [|op ops IH]; intros workspace dev.
  - reflexivity.
  - simpl.
    destruct (initialize_workspace op problem_shape (fst args) workspace
                stream cuda_adapter dev) as [status dev'] eqn:Einit.
    destruct (Status_eqb status kSuccess) eqn:Est.
    + apply Status_eqb_eq in Est. subst status.
      specialize (IH (snd args)
        (if negb (workspace =? nullptr) then
           ptr_add workspace
             (round_nearest (get_workspace_size op problem_shape (fst args))
                MinWorkspaceAlignment)
         else workspace) dev').
      destruct (transform _ ops (snd args) _) as [rs s']. simpl in *. exact IH.
    + assert (Hne : status <> kSuccess).
      { intro Heq. subst status. discriminate. }
      pose proof (initialize_workspace_N_failed ops problem_shape (snd args)
                    stream cuda_adapter status
                    (if negb (workspace =? nullptr) then
                       ptr_add workspace
                         (round_nearest (get_workspace_size op problem_shape (fst args))
                            MinWorkspaceAlignment)
                     else workspace) dev' Hne) as Hrest.
      simpl in Hrest.
      destruct (transform _ ops (snd args) _) as [rs s']. simpl in *.
      rewrite Hrest. reflexivity.
Qed.

(** *** Which form the compiler selects *)

Ltac by_arity ops :=
  destruct ops as [|?Op0 [|?Op1 [|?Op2 [|?Op3 [|?Op4 ops]]]]].

Lemma generic_to_underlying_arguments (ops : list Op) :
  specialized ops = false ->
  to_underlying_arguments_impl ops = to_underlying_arguments_N ops.
Proof. by_arity ops; intro H; try discriminate H; reflexivity. Qed.

Lemma generic_can_implement (ops : list Op) :
  specialized ops = false -> can_implement_impl ops = can_implement_N ops.
Proof. by_arity ops; intro H; try discriminate H; reflexivity. Qed.

Lemma generic_get_workspace_size (ops : list Op) :
  specialized ops = false ->
  get_workspace_size_impl ops = get_workspace_size_N ops.
Proof. by_arity ops; intro H; try discriminate H; reflexivity. Qed.

Lemma generic_initialize_workspace (ops : list Op) :
  specialized ops = false ->
  initialize_workspace_impl ops = initialize_workspace_N ops.
Proof. by_arity ops; intro H; try discriminate H; reflexivity. Qed.

Lemma specialized_probe (ops : list Op) :
  specialized (map probe ops) = specialized ops.
Proof. by_arity ops; reflexivity. Qed.

(** The pointers handed out by [to_underlying_arguments], form by form. *)
Lemma child_workspaces_forms (ops : list Op) (problem_shape : ProblemShape)
    (args : tuple Arguments ops) (workspace : ptr) :
  child_workspaces ops problem_shape args workspace =
  if specialized ops then chained_workspaces ops problem_shape args workspace
  else running_workspaces ops problem_shape args workspace.
Proof.
  destruct (specialized ops) eqn:E.
  - by_arity ops; try discriminate E; reflexivity.
  - unfold child_workspaces. simpl to_underlying_arguments.
    rewrite generic_to_underlying_arguments by (now rewrite specialized_probe).
    apply probe_running_workspaces.
Qed.

(** The composite's [Params] are the children's own [Params], each resolved
    against the pointer [child_workspaces] reports for it. *)
Lemma to_underlying_arguments_children (ops : list Op)
    (problem_shape : ProblemShape) (args : tuple Arguments ops) (workspace : ptr) :
  to_underlying_arguments (Sm90VisitorImplBase ops) problem_shape args workspace =
  children_params ops problem_shape args
    (child_workspaces ops problem_shape args workspace).
Proof.
  rewrite child_workspaces_forms.
  destruct (specialized ops) eqn:E.
  - by_arity ops; try discriminate E; reflexivity.
  - simpl to_underlying_arguments.
    rewrite generic_to_underlying_arguments by assumption.
    apply to_underlying_arguments_N_children.
Qed.

Lemma child_workspaces_length (ops : list Op) (problem_shape : ProblemShape)
    (args : tuple Arguments ops) (workspace : ptr) :
  length (child_workspaces ops problem_shape args workspace) = length ops.
Proof.
  rewrite child_workspaces_forms.
  destruct (specialized ops); revert workspace;
    induction ops as [|op ops IH]; intro workspace; simpl;
    try reflexivity; now rewrite IH.
Qed.

Lemma child_sizes_length (ops : list Op) (problem_shape : ProblemShape)
    (args : tuple Arguments ops) :
  length (child_sizes ops problem_shape args) = length ops.
Proof. induction ops as [|op ops IH]; simpl; [reflexivity | now rewrite IH]. Qed.

(** *** Feasibility *)

Lemma can_implement_N_forallb (ops : list Op)
    (problem_shape : ProblemShape) (args : tuple Arguments ops) :
  can_implement_N ops problem_shape args =
  forallb (fun implementable => implementable)
    (children_can_implement ops problem_shape args).
Proof.
  induction ops as [|op ops IH].
  - reflexivity.
  - rewrite can_implement_N_cons, IH. reflexivity.
Qed.

Lemma can_implement_forallb (ops : list Op)
    (problem_shape : ProblemShape) (args : tuple Arguments ops) :
  can_implement (Sm90VisitorImplBase ops) problem_shape args =
  forallb (fun implementable => implementable)
    (children_can_implement ops problem_shape args).
Proof.
  destruct (specialized ops) eqn:E.
  - by_arity ops; try discriminate E; simpl;
      unfold can_implement_1, can_implement_2, can_implement_3,
        can_implement_4, op_0, op_1, op_2, op_3;
      rewrite ?andb_true_r, ?andb_assoc; reflexivity.
  - simpl can_implement. rewrite generic_can_implement by assumption.
    apply can_implement_N_forallb.
Qed.

(** C3: the composite [can_implement] holds exactly when each child's own
    [can_implement] holds on its own sub-arguments, in the generic form and
    in each of the four specializations. *)
Theorem can_implement_conjunction (ops : list Op)
    (problem_shape : ProblemShape) (args : tuple Arguments ops) :
  can_implement (Sm90VisitorImplBase ops) problem_shape args = true <->
  Forall (fun implementable => implementable = true)
    (children_can_implement ops problem_shape args).
Proof.
  rewrite can_implement_forallb, forallb_forall, Forall_forall. reflexivity.
Qed.

(** *** Initialization *)

Lemma fail_fast_stops (before after : list (Device -> Status * Device))
    (call : Device -> Status * Device) (dev dev1 dev2 : Device) (status : Status) :
  fail_fast before dev = (kSuccess, dev1) ->
  call dev1 = (status, dev2) ->
  status <> kSuccess ->
  fail_fast (before ++ call :: after) dev = (status, dev2).
Proof.
  revert dev. induction before as [|c before IH]; intros dev Hb Hc Hne; simpl in *.
  - injection Hb as <-. rewrite Hc.
    destruct (Status_eqb status kSuccess) eqn:E; [|reflexivity].
    apply Status_eqb_eq in E. contradiction.
  - destruct (c dev) as [st d]. destruct (Status_eqb st kSuccess) eqn:E.
    + now apply IH.
    + injection Hb as -> _. discriminate E.
Qed.

Lemma fail_fast_success (calls : list (Device -> Status * Device))
    (call : Device -> Status * Device) (dev dev1 : Device) :
  fail_fast calls dev = (kSuccess, dev1) ->
  fail_fast (calls ++ [call]) dev =
  (let (status, dev2) := call dev1 in (status, dev2)).
Proof.
  revert dev. induction calls as [|c calls IH]; intros dev H; simpl in *.
  - injection H as <-. destruct (call dev) as [st d].
    destruct (Status_eqb st kSuccess) eqn:E; [|reflexivity].
    apply Status_eqb_eq in E. now subst.
  - destruct (c dev) as [st d]. destruct (Status_eqb st kSuccess) eqn:E.
    + now apply IH.
    + injection H as -> _. discriminate E.
Qed.

(** C4: [initialize_workspace] runs the children's initializations in declared
    order and fails fast: it equals the chain [fail_fast] over the children,
    which returns the first status that is not [kSuccess] with the device as
    that child left it (no later child runs, nothing is rolled back), and
    [kSuccess] when every child succeeds. *)
Theorem initialize_workspace_fail_fast (ops : list Op)
    (problem_shape : ProblemShape) (args : tuple Arguments ops)
    (workspace : ptr) (stream : cudaStream_t)
    (cuda_adapter : option CudaHostAdapter) (dev : Device) :
  initialize_workspace (Sm90VisitorImplBase ops) problem_shape args workspace
    stream cuda_adapter dev =
  fail_fast
    (children_initialize ops problem_shape stream cuda_adapter args
       (initialize_workspaces ops problem_shape args workspace)) dev.
Proof.
  unfold initialize_workspaces.
  destruct (specialized ops) eqn:E.
  - by_arity ops; try discriminate E; simpl;
      unfold initialize_workspace_1, initialize_workspace_2,
        initialize_workspace_3, initialize_workspace_4, op_0, op_1, op_2, op_3;
      repeat match goal with
        | |- context [initialize_workspace ?op ?ps ?a ?w ?s ?c ?d] =>
            destruct (initialize_workspace op ps a w s c d) as [? ?]; simpl
        | |- context [Status_eqb ?st kSuccess] =>
            let Est := fresh "Est" in
            destruct (Status_eqb st kSuccess) eqn:Est; simpl
        end;
      try reflexivity;
      repeat match goal with
        | H : Status_eqb _ kSuccess = true |- _ =>
            apply Status_eqb_eq in H; subst
        end; reflexivity.
  - simpl initialize_workspace.
    rewrite generic_initialize_workspace by assumption.
    apply initialize_workspace_N_chain.
Qed.

(** *** The layout without overflow *)

Lemma workspace_extent_ge_sum (sizes : list size_t) :
  0 < MinWorkspaceAlignment ->
  fold_right N.add 0 sizes <= workspace_extent sizes.
Proof.
  intro Ha. induction sizes as [|size sizes IH]; simpl.
  - lia.
  - pose proof (round_up_ge size Ha). lia.
Qed.

Lemma round_nearest_sizes (sizes : list size_t) :
  valid_alignment -> workspace_extent sizes < size_modulus ->
  map (fun size => round_nearest size MinWorkspaceAlignment) sizes =
  map round_up sizes.
Proof.
  intros Hv. induction sizes as [|size sizes IH]; intro H; simpl in *.
  - reflexivity.
  - rewrite round_nearest_exact by (assumption || lia).
    rewrite IH by lia. reflexivity.
Qed.

Lemma accumulate_sizes_exact (sizes : list size_t) (q : N) :
  valid_alignment ->
  q * MinWorkspaceAlignment + workspace_extent sizes < size_modulus ->
  accumulate_sizes sizes (q * MinWorkspaceAlignment) =
  q * MinWorkspaceAlignment + workspace_extent sizes.
Proof.
  intro Hv. pose proof (valid_alignment_pos Hv) as Ha.
  unfold accumulate_sizes.
  revert q. induction sizes as [|size sizes IH]; intros q H; simpl in *.
  - lia.
  - pose proof (round_up_ge size Ha) as Hge.
    destruct (round_up_spec size Ha) as (r & Hr & _).
    unfold size_add. rewrite wrap_small by lia.
    rewrite round_nearest_exact by (try assumption; rewrite round_up_shift; lia).
    rewrite round_up_shift by assumption. rewrite Hr.
    rewrite <- N.mul_add_distr_r. rewrite IH.
    + rewrite N.mul_add_distr_r. lia.
    + rewrite N.mul_add_distr_r. lia.
Qed.

Lemma get_workspace_size_accumulate (ops : list Op)
    (problem_shape : ProblemShape) (args : tuple Arguments ops) :
  specialized ops = true ->
  get_workspace_size (Sm90VisitorImplBase ops) problem_shape args =
  accumulate_sizes (child_sizes ops problem_shape args) 0.
Proof. by_arity ops; intro E; try discriminate E; reflexivity. Qed.

(** Without overflow the composite's size is the exact sum of the children's
    rounded sizes, in every form. *)
Lemma get_workspace_size_extent (ops : list Op)
    (problem_shape : ProblemShape) (args : tuple Arguments ops) :
  valid_alignment ->
  workspace_extent (child_sizes ops problem_shape args) < size_modulus ->
  get_workspace_size (Sm90VisitorImplBase ops) problem_shape args =
  workspace_extent (child_sizes ops problem_shape args).
Proof.
  intros Hv Hlt. destruct (specialized ops) eqn:E.
  - rewrite get_workspace_size_accumulate by assumption.
    apply (accumulate_sizes_exact _ 0 Hv). exact Hlt.
  - simpl get_workspace_size.
    rewrite generic_get_workspace_size by assumption.
    rewrite get_workspace_size_N_sizes, round_nearest_sizes by assumption.
    rewrite fold_left_size_add.
    + generalize (child_sizes ops problem_shape args). intro l.
      induction l as [|x l IH]; simpl; [reflexivity | now rewrite <- IH].
    + generalize dependent (child_sizes ops problem_shape args). intros l Hl.
      replace (fold_right N.add 0 (map round_up l)) with (workspace_extent l);
        [exact Hl|].
      induction l as [|x l IH]; simpl; [reflexivity|].
      rewrite <- IH; [reflexivity|]. simpl in Hl. lia.
Qed.

Lemma running_workspaces_exact (ops : list Op)
    (problem_shape : ProblemShape) (args : tuple Arguments ops) (workspace : ptr) :
  valid_alignment ->
  buffer_fits workspace (child_sizes ops problem_shape args) ->
  running_workspaces ops problem_shape args workspace =
  prefix_offsets workspace (map round_up (child_sizes ops problem_shape args)).
Proof.
  intro Hv. pose proof (valid_alignment_pos Hv) as Ha.
  unfold buffer_fits, nullptr, ptr.
  revert workspace. induction ops as [|op ops IH]; intros workspace [Hnn Hfit].
  - reflexivity.
  - cbn [child_sizes running_workspaces map prefix_offsets] in *.
    rewrite workspace_extent_cons in Hnn, Hfit.
    set (rounded := round_up (get_workspace_size op problem_shape (fst args))) in *.
    f_equal.
    match goal with
    | |- running_workspaces _ _ _ ?next = _ =>
        replace next with (workspace + rounded)
    end.
    + apply IH. split; [|lia].
      destruct Hnn as [Hnn | Hzero]; [left | right]; lia.
    + unfold nullptr.
      destruct (N.eqb_spec workspace 0) as [Enull | Enn]; cbn [negb].
      * destruct Hnn as [Hnn | Hzero]; [contradiction | lia].
      * rewrite round_nearest_exact by (assumption || (fold rounded; lia)).
        fold rounded. unfold ptr_add. rewrite wrap_small by lia. reflexivity.
Qed.

Lemma chained_workspaces_exact (ops : list Op)
    (problem_shape : ProblemShape) (args : tuple Arguments ops) (workspace : ptr) :
  workspace + fold_right N.add 0 (child_sizes ops problem_shape args)
    < size_modulus ->
  chained_workspaces ops problem_shape args workspace =
  prefix_offsets workspace (child_sizes ops problem_shape args).
Proof.
  revert workspace. induction ops as [|op ops IH]; intros workspace Hfit.
  - reflexivity.
  - simpl in *. f_equal.
    unfold ptr_add. rewrite wrap_small by lia.
    apply IH. lia.
Qed.

Lemma child_workspaces_exact (ops : list Op)
    (problem_shape : ProblemShape) (args : tuple Arguments ops) (workspace : ptr) :
  valid_alignment ->
  buffer_fits workspace (child_sizes ops problem_shape args) ->
  child_workspaces ops problem_shape args workspace =
  prefix_offsets workspace (child_strides ops problem_shape args).
Proof.
  intros Hv Hfit. rewrite child_workspaces_forms. unfold child_strides.
  destruct (specialized ops).
  - apply chained_workspaces_exact. destruct Hfit as [_ Hfit].
    pose proof (workspace_extent_ge_sum (child_sizes ops problem_shape args)
                  (valid_alignment_pos Hv)).
    lia.
  - now apply running_workspaces_exact.
Qed.

Lemma prefix_offsets_shift (start : N) (strides : list N) :
  prefix_offsets start strides = map (N.add start) (prefix_offsets 0 strides).
Proof.
  revert start. induction strides as [|x l IH]; intro start; simpl.
  - reflexivity.
  - rewrite N.add_0_r. f_equal. rewrite IH, (IH x), map_map.
    apply map_ext. intro y. lia.
Qed.

(** Regions packed one after the other with strides no smaller than their
    sizes stay inside the span of the strides and do not overlap. *)
Lemma packed_regions (sizes strides : list N) (start : N) :
  Forall2 N.le sizes strides ->
  let regions := combine (prefix_offsets start strides) sizes in
  Forall (region_within start (fold_right N.add 0 strides)) regions /\
  ForallOrdPairs regions_disjoint regions.
Proof.
  intro H. revert start.
  induction H as [|size stride sizes strides Hle H IH]; intro start; simpl.
  - split; constructor.
  - destruct (IH (start + stride)) as [Hin Hdis]. split.
    + constructor.
      * unfold region_within. simpl. lia.
      * eapply Forall_impl; [|exact Hin].
        intros [p n]. unfold region_within. simpl. lia.
    + constructor; [|exact Hdis].
      eapply Forall_impl; [|exact Hin].
      intros [p n]. unfold region_within, regions_disjoint. simpl. lia.
Qed.

Lemma child_strides_cover (ops : list Op) (problem_shape : ProblemShape)
    (args : tuple Arguments ops) :
  0 < MinWorkspaceAlignment ->
  Forall2 N.le (child_sizes ops problem_shape args)
    (child_strides ops problem_shape args) /\
  fold_right N.add 0 (child_strides ops problem_shape args) <=
  workspace_extent (child_sizes ops problem_shape args).
Proof.
  intro Ha. unfold child_strides.
  generalize (child_sizes ops problem_shape args). intro sizes.
  destruct (specialized ops); split.
  - induction sizes; constructor; [lia | assumption].
  - now apply workspace_extent_ge_sum.
  - induction sizes; constructor; [now apply round_up_ge | assumption].
  - induction sizes as [|x l IH]; simpl in *; lia.
Qed.

(** C2: on a buffer of exactly [get_workspace_size] bytes,
    [to_underlying_arguments] hands each child a region (the pointer it
    receives, its own workspace size) that lies inside the buffer and does
    not overlap the region of any other child; this holds for the generic
    form and for the four specializations. *)
Theorem child_regions_within_and_disjoint (ops : list Op)
    (problem_shape : ProblemShape) (args : tuple Arguments ops) (workspace : ptr) :
  valid_alignment ->
  buffer_fits workspace (child_sizes ops problem_shape args) ->
  let regions :=
    combine (child_workspaces ops problem_shape args workspace)
      (child_sizes ops problem_shape args) in
  let len := get_workspace_size (Sm90VisitorImplBase ops) problem_shape args in
  length regions = length ops /\
  Forall (region_within workspace len) regions /\
  ForallOrdPairs regions_disjoint regions.
Proof.
  intros Hv Hfit regions len. subst regions len.
  pose proof (valid_alignment_pos Hv) as Ha.
  split.
  { rewrite length_combine, child_workspaces_length, child_sizes_length.
    apply Nat.min_id. }
  rewrite child_workspaces_exact by assumption.
  rewrite get_workspace_size_extent by (try assumption; destruct Hfit; lia).
  destruct (child_strides_cover ops problem_shape args Ha) as [Hle Hsum].
  destruct (packed_regions _ _ workspace Hle) as [Hin Hdis].
  split; [|exact Hdis].
  eapply Forall_impl; [|exact Hin].
  intros [p n]. unfold region_within. simpl. lia.
Qed.

(** C9 (as amended): the derivation is a function of the problem shape, the
    [Arguments] and the address of the workspace.  On two buffers that fit,
    every child is resolved against its buffer's start plus an offset that
    depends on the problem shape and the [Arguments] alone; with the same
    start address the two [Params] are equal. *)
Theorem to_underlying_arguments_relocates (ops : list Op)
    (problem_shape : ProblemShape) (args : tuple Arguments ops)
    (workspace1 workspace2 : ptr) :
  valid_alignment ->
  buffer_fits workspace1 (child_sizes ops problem_shape args) ->
  buffer_fits workspace2 (child_sizes ops problem_shape args) ->
  let offsets := prefix_offsets 0 (child_strides ops problem_shape args) in
  to_underlying_arguments (Sm90VisitorImplBase ops) problem_shape args workspace1 =
    children_params ops problem_shape args (map (N.add workspace1) offsets) /\
  to_underlying_arguments (Sm90VisitorImplBase ops) problem_shape args workspace2 =
    children_params ops problem_shape args (map (N.add workspace2) offsets) /\
  (workspace1 = workspace2 ->
   to_underlying_arguments (Sm90VisitorImplBase ops) problem_shape args workspace1 =
   to_underlying_arguments (Sm90VisitorImplBase ops) problem_shape args workspace2).
Proof.
  intros Hv Hfit1 Hfit2 offsets. subst offsets.
  rewrite <- !prefix_offsets_shift.
  rewrite <- (child_workspaces_exact ops problem_shape args workspace1) by assumption.
  rewrite <- (child_workspaces_exact ops problem_shape args workspace2) by assumption.
  repeat split; try apply to_underlying_arguments_children.
  intros ->. reflexivity.
Qed.

(** The two-operand specialization, for any two children: the pointer of
    the second child is the first child's own size past the workspace in
    [to_underlying_arguments], and the rounded size past it in
    [initialize_workspace]. *)
Lemma two_operand_workspaces (Op0 Op1 : Op) (problem_shape : ProblemShape)
    (args : tuple Arguments [Op0; Op1]) (workspace : ptr) :
  child_workspaces [Op0; Op1] problem_shape args workspace =
    [workspace;
     ptr_add workspace (get_workspace_size Op0 problem_shape (op_0 args))] /\
  initialize_workspaces [Op0; Op1] problem_shape args workspace =
    [ptr_add workspace 0;
     ptr_add workspace
       (round_nearest (size_add 0 (get_workspace_size Op0 problem_shape (op_0 args)))
          MinWorkspaceAlignment)].
Proof. split; reflexivity. Qed.

(** In the generic form the three host functions agree on the layout,
    whatever the workspace pointer. *)
Lemma generic_layout_agrees (ops : list Op) (problem_shape : ProblemShape)
    (args : tuple Arguments ops) (workspace : ptr) :
  specialized ops = false ->
  child_workspaces ops problem_shape args workspace =
  initialize_workspaces ops problem_shape args workspace.
Proof.
  intro E. rewrite child_workspaces_forms. unfold initialize_workspaces.
  now rewrite E.
Qed.

(** *** Further properties of the host functions *)

Lemma round_up_aligned (q : N) :
  0 < MinWorkspaceAlignment ->
  round_up (q * MinWorkspaceAlignment) = q * MinWorkspaceAlignment.
Proof.
  intro Ha. pose proof (round_up_shift q 0 Ha) as H.
  rewrite N.add_0_r in H. rewrite H.
  unfold round_up. simpl.
  rewrite (N.div_small (MinWorkspaceAlignment - 1)) by lia. lia.
Qed.

(** X1: without overflow the composite's workspace size is the exact sum
    of the children's sizes, each rounded up to the alignment; it is a
    multiple of the alignment and covers the sum of the children's own
    sizes.  This holds for the generic form and the four specializations. *)
Theorem get_workspace_size_rounded_sum (ops : list Op)
    (problem_shape : ProblemShape) (args : tuple Arguments ops) :
  valid_alignment ->
  workspace_extent (child_sizes ops problem_shape args) < size_modulus ->
  get_workspace_size (Sm90VisitorImplBase ops) problem_shape args =
    fold_right N.add 0 (map round_up (child_sizes ops problem_shape args)) /\
  (exists q,
     get_workspace_size (Sm90VisitorImplBase ops) problem_shape args =
     q * MinWorkspaceAlignment) /\
  fold_right N.add 0 (child_sizes ops problem_shape args) <=
    get_workspace_size (Sm90VisitorImplBase ops) problem_shape args.
Proof.
  intros Hv Hlt. rewrite get_workspace_size_extent by assumption.
  split; [|split].
  - generalize (child_sizes ops problem_shape args). intro sizes.
    induction sizes as [|size sizes IH]; simpl; [reflexivity | now rewrite IH].
  - apply workspace_extent_multiple.
  - apply workspace_extent_ge_sum. now apply valid_alignment_pos.
Qed.

Lemma offset_workspaces_exact (ops : list Op)
    (problem_shape : ProblemShape) (args : tuple Arguments ops)
    (workspace : ptr) (q : N) :
  valid_alignment ->
  workspace + q * MinWorkspaceAlignment
    + workspace_extent (child_sizes ops problem_shape args) < size_modulus ->
  offset_workspaces ops problem_shape args workspace (q * MinWorkspaceAlignment) =
  prefix_offsets (workspace + q * MinWorkspaceAlignment)
    (map round_up (child_sizes ops problem_shape args)).
Proof.
  intro Hv. pose proof (valid_alignment_pos Hv) as Ha. unfold ptr in *.
  revert q. induction ops as [|op ops IH]; intros q Hfit.
  - reflexivity.
  - cbn [child_sizes offset_workspaces map prefix_offsets] in *.
    rewrite workspace_extent_cons in Hfit.
    set (size := get_workspace_size op problem_shape (fst args)) in *.
    pose proof (round_up_ge size Ha) as Hge.
    destruct (round_up_spec size Ha) as (r & Hr & _).
    f_equal.
    + unfold ptr_add. apply wrap_small. lia.
    + unfold size_add. rewrite (wrap_small (q * MinWorkspaceAlignment + size)) by lia.
      rewrite round_nearest_exact by (try assumption; rewrite round_up_shift; lia).
      rewrite round_up_shift by assumption. rewrite Hr.
      rewrite <- N.mul_add_distr_r. rewrite IH.
      * rewrite N.mul_add_distr_r. f_equal. lia.
      * rewrite N.mul_add_distr_r. lia.
Qed.

(** The pointers of [initialize_workspace] are the rounded prefix sums in
    every form. *)
Lemma initialize_workspaces_exact (ops : list Op)
    (problem_shape : ProblemShape) (args : tuple Arguments ops) (workspace : ptr) :
  valid_alignment ->
  buffer_fits workspace (child_sizes ops problem_shape args) ->
  initialize_workspaces ops problem_shape args workspace =
  prefix_offsets workspace (map round_up (child_sizes ops problem_shape args)).
Proof.
  intros Hv Hfit. unfold initialize_workspaces. destruct (specialized ops).
  - pose proof (offset_workspaces_exact ops problem_shape args workspace 0 Hv) as H.
    rewrite N.mul_0_l, N.add_0_r in H. apply H. destruct Hfit as [_ Hfit]. exact Hfit.
  - now apply running_workspaces_exact.
Qed.

Lemma prefix_offsets_aligned (start : N) (sizes : list size_t) :
  Forall (fun p => exists q, p = start + q * MinWorkspaceAlignment)
    (prefix_offsets start (map round_up sizes)).
Proof.
  assert (G : forall q0,
    Forall (fun p => exists q, p = start + q * MinWorkspaceAlignment)
      (prefix_offsets (start + q0 * MinWorkspaceAlignment) (map round_up sizes))).
  { induction sizes as [|size sizes IH]; intro q0; simpl.
    - constructor.
    - constructor; [now exists q0|].
      unfold round_up at 1.
      rewrite <- N.add_assoc, <- N.mul_add_distr_r. apply IH. }
  specialize (G 0). now rewrite N.mul_0_l, N.add_0_r in G.
Qed.

(** X2: the regions [initialize_workspace] initializes (the pointer handed to
    a child, the child's own size) lie inside the buffer of
    [get_workspace_size] bytes, do not overlap, and start a multiple of the
    alignment past the workspace pointer, in every form. *)
Theorem initialize_regions_within_disjoint_aligned (ops : list Op)
    (problem_shape : ProblemShape) (args : tuple Arguments ops) (workspace : ptr) :
  valid_alignment ->
  buffer_fits workspace (child_sizes ops problem_shape args) ->
  let workspaces := initialize_workspaces ops problem_shape args workspace in
  let regions := combine workspaces (child_sizes ops problem_shape args) in
  let len := get_workspace_size (Sm90VisitorImplBase ops) problem_shape args in
  Forall (region_within workspace len) regions /\
  ForallOrdPairs regions_disjoint regions /\
  Forall (fun p => exists q, p = workspace + q * MinWorkspaceAlignment) workspaces.
Proof.
  intros Hv Hfit workspaces regions len. subst workspaces regions len.
  pose proof (valid_alignment_pos Hv) as Ha.
  rewrite initialize_workspaces_exact by assumption.
  rewrite get_workspace_size_extent by (try assumption; destruct Hfit; lia).
  generalize (child_sizes ops problem_shape args). intro sizes.
  assert (Hle : Forall2 N.le sizes (map round_up sizes)).
  { induction sizes; constructor; [now apply round_up_ge | assumption]. }
  assert (Hsum : fold_right N.add 0 (map round_up sizes) = workspace_extent sizes).
  { clear Hle. induction sizes as [|x l IH]; simpl; [reflexivity | now rewrite IH]. }
  destruct (packed_regions _ _ workspace Hle) as [Hin Hdis].
  rewrite Hsum in Hin.
  split; [exact Hin|]. split; [exact Hdis|]. apply prefix_offsets_aligned.
Qed.

(** X3: when every child's size is a multiple of the alignment, the
    pointers of [to_underlying_arguments] and of [initialize_workspace]
    coincide in every form, the specializations included. *)
Theorem aligned_sizes_layouts_agree (ops : list Op)
    (problem_shape : ProblemShape) (args : tuple Arguments ops) (workspace : ptr) :
  valid_alignment ->
  buffer_fits workspace (child_sizes ops problem_shape args) ->
  Forall (fun size => exists q, size = q * MinWorkspaceAlignment)
    (child_sizes ops problem_shape args) ->
  child_workspaces ops problem_shape args workspace =
  initialize_workspaces ops problem_shape args workspace.
Proof.
  intros Hv Hfit Hal. pose proof (valid_alignment_pos Hv) as Ha.
  rewrite child_workspaces_exact, initialize_workspaces_exact by assumption.
  f_equal. unfold child_strides. destruct (specialized ops); [|reflexivity].
  clear Hfit. induction Hal as [|size sizes (q & ->) Hal IH]; simpl.
  - reflexivity.
  - rewrite round_up_aligned by assumption. now rewrite <- IH.
Qed.

(** X4: in the generic form (no operand, or five and more)
    [to_underlying_arguments] and [initialize_workspace] hand the children
    the same pointers, for every workspace pointer and every size. *)
Theorem generic_form_same_pointers (ops : list Op)
    (problem_shape : ProblemShape) (args : tuple Arguments ops) (workspace : ptr) :
  (length ops = 0 \/ 5 <= length ops)%nat ->
  child_workspaces ops problem_shape args workspace =
  initialize_workspaces ops problem_shape args workspace.
Proof.
  intro Hlen. rewrite child_workspaces_forms. unfold initialize_workspaces.
  assert (E : specialized ops = false).
  { by_arity ops; simpl in Hlen; try reflexivity; lia. }
  now rewrite E.
Qed.

Lemma running_workspaces_null (ops : list Op)
    (problem_shape : ProblemShape) (args : tuple Arguments ops) :
  running_workspaces ops problem_shape args nullptr = repeat nullptr (length ops).
Proof.
  induction ops as [|op ops IH]; simpl; [reflexivity | now rewrite IH].
Qed.

(** X5: in the generic form a null workspace stays null: each child's
    [to_underlying_arguments] and each child's [initialize_workspace]
    receives the null pointer, whatever the children's sizes. *)
Theorem generic_form_null_workspace (ops : list Op)
    (problem_shape : ProblemShape) (args : tuple Arguments ops) :
  (length ops = 0 \/ 5 <= length ops)%nat ->
  child_workspaces ops problem_shape args nullptr = repeat nullptr (length ops) /\
  initialize_workspaces ops problem_shape args nullptr = repeat nullptr (length ops).
Proof.
  intro Hlen. rewrite child_workspaces_forms. unfold initialize_workspaces.
  assert (E : specialized ops = false).
  { by_arity ops; simpl in Hlen; try reflexivity; lia. }
  rewrite E. split; apply running_workspaces_null.
Qed.

(** X6: the specializations do not test the workspace pointer: on a null
    workspace child [i] of [to_underlying_arguments] is handed the sum of
    the earlier children's sizes as its address, and child [i] of
    [initialize_workspace] the sum of their rounded sizes. *)
Theorem specialized_null_workspace (ops : list Op)
    (problem_shape : ProblemShape) (args : tuple Arguments ops) :
  valid_alignment ->
  (1 <= length ops <= 4)%nat ->
  workspace_extent (child_sizes ops problem_shape args) < size_modulus ->
  child_workspaces ops problem_shape args nullptr =
    prefix_offsets 0 (child_sizes ops problem_shape args) /\
  initialize_workspaces ops problem_shape args nullptr =
    prefix_offsets 0 (map round_up (child_sizes ops problem_shape args)).
Proof.
  intros Hv Hlen Hfit. pose proof (valid_alignment_pos Hv) as Ha.
  assert (E : specialized ops = true).
  { by_arity ops; simpl in Hlen; try reflexivity; lia. }
  rewrite child_workspaces_forms. unfold initialize_workspaces. rewrite E.
  split.
  - apply chained_workspaces_exact.
    pose proof (workspace_extent_ge_sum (child_sizes ops problem_shape args) Ha).
    unfold nullptr. lia.
  - pose proof (offset_workspaces_exact ops problem_shape args nullptr 0 Hv) as H.
    unfold nullptr in *. rewrite N.mul_0_l in H. apply H. lia.
Qed.

(** *** Further properties of the initialization chain *)

(** Every call of the list succeeds when the calls run one after the other
    from [dev]. *)
Fixpoint all_succeed (calls : list (Device -> Status * Device)) (dev : Device)
  : Prop :=
  match calls with
  | [] => True
  | call :: calls' =>
      fst (call dev) = kSuccess /\ all_succeed calls' (snd (call dev))
  end.

(** The device after all the calls have run, one after the other. *)
Definition run_all (calls : list (Device -> Status * Device)) (dev : Device)
  : Device :=
  fold_left (fun dev call => snd (call dev)) calls dev.

Lemma fail_fast_all_succeed (calls : list (Device -> Status * Device))
    (dev : Device) :
  all_succeed calls dev -> fail_fast calls dev = (kSuccess, run_all calls dev).
Proof.
  revert dev. induction calls as [|call calls IH]; intros dev H; simpl in *.
  - reflexivity.
  - destruct H as [H1 H2]. destruct (call dev) as [status dev1]. simpl in *.
    subst status. simpl. now apply IH.
Qed.

Lemma fail_fast_success_inv (calls : list (Device -> Status * Device))
    (dev : Device) :
  fst (fail_fast calls dev) = kSuccess -> all_succeed calls dev.
Proof.
  revert dev. induction calls as [|call calls IH]; intros dev H; simpl in *.
  - exact Logic.I.
  - destruct (call dev) as [status dev1]. simpl.
    destruct (Status_eqb status kSuccess) eqn:E.
    + apply Status_eqb_eq in E. split; [exact E | now apply IH].
    + simpl in H. subst status. discriminate E.
Qed.

Lemma fail_fast_failure_inv (calls : list (Device -> Status * Device))
    (dev dev' : Device) (status : Status) :
  fail_fast calls dev = (status, dev') -> status <> kSuccess ->
  exists before call after,
    calls = before ++ call :: after /\
    all_succeed before dev /\
    call (run_all before dev) = (status, dev').
Proof.
  revert dev. induction calls as [|call calls IH]; intros dev H Hne; simpl in *.
  - injection H as <- _. contradiction.
  - destruct (call dev) as [st dev1] eqn:Ecall.
    destruct (Status_eqb st kSuccess) eqn:E.
    + apply Status_eqb_eq in E. subst st.
      destruct (IH dev1 H Hne) as (before & c & after & -> & Hall & Hc).
      exists (call :: before), c, after. simpl. rewrite Ecall. simpl.
      repeat split; assumption.
    + injection H as -> ->. exists [], call, calls. simpl.
      repeat split. exact Ecall.
Qed.

Lemma initialize_workspace_specialized_chain (ops : list Op)
    (problem_shape : ProblemShape) (args : tuple Arguments ops)
    (workspace : ptr) (stream : cudaStream_t)
    (cuda_adapter : option CudaHostAdapter) (dev : Device) :
  specialized ops = true ->
  initialize_workspace_impl ops problem_shape args workspace stream cuda_adapter dev =
  fail_fast
    (children_initialize ops problem_shape stream cuda_adapter args
       (offset_workspaces ops problem_shape args workspace 0)) dev.
Proof.
  intro E. by_arity ops; try discriminate E; simpl;
    unfold initialize_workspace_1, initialize_workspace_2,
      initialize_workspace_3, initialize_workspace_4, op_0, op_1, op_2, op_3;
    repeat match goal with
      | |- context [initialize_workspace ?op ?ps ?a ?w ?s ?c ?d] =>
          destruct (initialize_workspace op ps a w s c d) as [? ?]; simpl
      | |- context [Status_eqb ?st kSuccess] =>
          let Est := fresh "Est" in
          destruct (Status_eqb st kSuccess) eqn:Est; simpl
      end;
    try reflexivity;
    repeat match goal with
      | H : Status_eqb _ kSuccess = true |- _ => apply Status_eqb_eq in H; subst
      end; reflexivity.
Qed.

Lemma initialize_workspace_chain (ops : list Op)
    (problem_shape : ProblemShape) (args : tuple Arguments ops)
    (workspace : ptr) (stream : cudaStream_t)
    (cuda_adapter : option CudaHostAdapter) (dev : Device) :
  initialize_workspace (Sm90VisitorImplBase ops) problem_shape args workspace
    stream cuda_adapter dev =
  fail_fast
    (children_initialize ops problem_shape stream cuda_adapter args
       (initialize_workspaces ops problem_shape args workspace)) dev.
Proof.
  unfold initialize_workspaces. destruct (specialized ops) eqn:E.
  - now apply initialize_workspace_specialized_chain.
  - simpl initialize_workspace.
    rewrite generic_initialize_workspace by assumption.
    apply initialize_workspace_N_chain.
Qed.

(** X7: [initialize_workspace] returns [kSuccess] exactly when every child's
    initialization, run in declared order on the device the previous one
    left, returns [kSuccess]; the device is then the one left by the last
    child, every child having run once. *)
Theorem initialize_workspace_success (ops : list Op)
    (problem_shape : ProblemShape) (args : tuple Arguments ops)
    (workspace : ptr) (stream : cudaStream_t)
    (cuda_adapter : option CudaHostAdapter) (dev : Device) :
  let calls :=
    children_initialize ops problem_shape stream cuda_adapter args
      (initialize_workspaces ops problem_shape args workspace) in
  let result :=
    initialize_workspace (Sm90VisitorImplBase ops) problem_shape args workspace
      stream cuda_adapter dev in
  (fst result = kSuccess <-> all_succeed calls dev) /\
  (fst result = kSuccess -> snd result = run_all calls dev).
Proof.
  intros calls result. subst calls result. rewrite initialize_workspace_chain.
  split; [split|].
  - apply fail_fast_success_inv.
  - intro H. now rewrite fail_fast_all_succeed.
  - intro H. apply fail_fast_success_inv in H.
    now rewrite fail_fast_all_succeed.
Qed.

(** X8: a status other than [kSuccess] returned by [initialize_workspace] is
    the status of one child's initialization: the children before it all
    succeeded, the device is as that child left it, and the children after
    it did not run. *)
Theorem initialize_workspace_failure (ops : list Op)
    (problem_shape : ProblemShape) (args : tuple Arguments ops)
    (workspace : ptr) (stream : cudaStream_t)
    (cuda_adapter : option CudaHostAdapter) (dev dev' : Device)
    (status : Status) :
  initialize_workspace (Sm90VisitorImplBase ops) problem_shape args workspace
    stream cuda_adapter dev = (status, dev') ->
  status <> kSuccess ->
  exists before call after,
    children_initialize ops problem_shape stream cuda_adapter args
      (initialize_workspaces ops problem_shape args workspace)
    = before ++ call :: after /\
    all_succeed before dev /\
    call (run_all before dev) = (status, dev').
Proof.
  rewrite initialize_workspace_chain. apply fail_fast_failure_inv.
Qed.

(** *** Nested composites

    A composite is itself a fusion node and can be an operand of another
    composite, as the trees of an epilogue are built.  The host functions
    of the nest are compared with those of the composite that lists the
    inner operands in the place of the inner composite. *)

(** The tuple of the operands [ops1 ++ ops2]. *)
Fixpoint tuple_app {F : Op -> Type} (ops1 ops2 : list Op)
  : tuple F ops1 -> tuple F ops2 -> tuple F (ops1 ++ ops2) :=
  match ops1 with
  | [] => fun _ t2 => t2
  | _ :: ops1' => fun t1 t2 => (fst t1, tuple_app ops1' ops2 (snd t1) t2)
  end.

(** The arguments of the nest [xs..., Sm90VisitorImplBase<ys...>, zs...] and
    of the flat composite [xs..., ys..., zs...]. *)
Definition nested_args (xs ys zs : list Op) (args_xs : tuple Arguments xs)
    (args_ys : tuple Arguments ys) (args_zs : tuple Arguments zs)
  : tuple Arguments (xs ++ Sm90VisitorImplBase ys :: zs) :=
  tuple_app xs (Sm90VisitorImplBase ys :: zs) args_xs (args_ys, args_zs).

Definition flat_args (xs ys zs : list Op) (args_xs : tuple Arguments xs)
    (args_ys : tuple Arguments ys) (args_zs : tuple Arguments zs)
  : tuple Arguments (xs ++ ys ++ zs) :=
  tuple_app xs (ys ++ zs) args_xs (tuple_app ys zs args_ys args_zs).

Lemma children_can_implement_app (xs ys : list Op) (problem_shape : ProblemShape)
    (args_xs : tuple Arguments xs) (args_ys : tuple Arguments ys) :
  children_can_implement (xs ++ ys) problem_shape (tuple_app xs ys args_xs args_ys) =
  children_can_implement xs problem_shape args_xs
    ++ children_can_implement ys problem_shape args_ys.
Proof.
  induction xs as [|op xs IH]; simpl; [reflexivity | now rewrite IH].
Qed.

Lemma child_sizes_app (xs ys : list Op) (problem_shape : ProblemShape)
    (args_xs : tuple Arguments xs) (args_ys : tuple Arguments ys) :
  child_sizes (xs ++ ys) problem_shape (tuple_app xs ys args_xs args_ys) =
  child_sizes xs problem_shape args_xs ++ child_sizes ys problem_shape args_ys.
Proof.
  induction xs as [|op xs IH]; simpl; [reflexivity | now rewrite IH].
Qed.

Lemma children_initialize_app (xs ys : list Op) (problem_shape : ProblemShape)
    (stream : cudaStream_t) (cuda_adapter : option CudaHostAdapter)
    (args_xs : tuple Arguments xs) (args_ys : tuple Arguments ys)
    (workspaces_xs workspaces_ys : list ptr) :
  length workspaces_xs = length xs ->
  children_initialize (xs ++ ys) problem_shape stream cuda_adapter
    (tuple_app xs ys args_xs args_ys) (workspaces_xs ++ workspaces_ys) =
  children_initialize xs problem_shape stream cuda_adapter args_xs workspaces_xs
    ++ children_initialize ys problem_shape stream cuda_adapter args_ys workspaces_ys.
Proof.
  revert workspaces_xs.
  induction xs as [|op xs IH]; intros [|p workspaces_xs] Hlen;
    try discriminate Hlen; simpl.
  - reflexivity.
  - rewrite IH by (simpl in Hlen; lia). reflexivity.
Qed.

Lemma prefix_offsets_app (start : N) (strides1 strides2 : list N) :
  prefix_offsets start (strides1 ++ strides2) =
  prefix_offsets start strides1
    ++ prefix_offsets (start + fold_right N.add 0 strides1) strides2.
Proof.
  revert start. induction strides1 as [|stride strides1 IH]; intro start; simpl.
  - now rewrite N.add_0_r.
  - rewrite IH, N.add_assoc. reflexivity.
Qed.

Lemma prefix_offsets_length (start : N) (strides : list N) :
  length (prefix_offsets start strides) = length strides.
Proof.
  revert start. induction strides as [|stride strides IH]; intro start; simpl;
    [reflexivity | now rewrite IH].
Qed.

Lemma workspace_extent_sum (sizes : list size_t) :
  fold_right N.add 0 (map round_up sizes) = workspace_extent sizes.
Proof.
  induction sizes as [|size sizes IH]; simpl; [reflexivity | now rewrite IH].
Qed.

Lemma workspace_extent_app (sizes1 sizes2 : list size_t) :
  workspace_extent (sizes1 ++ sizes2) =
  workspace_extent sizes1 + workspace_extent sizes2.
Proof.
  induction sizes1 as [|size sizes1 IH]; simpl; [reflexivity|].
  fold (workspace_extent (sizes1 ++ sizes2)). fold (workspace_extent sizes1).
  rewrite IH. lia.
Qed.

(** The rounded extent of an inner composite is its extent. *)
Lemma workspace_extent_nested (sizes1 sizes2 sizes3 : list size_t) :
  0 < MinWorkspaceAlignment ->
  workspace_extent (sizes1 ++ workspace_extent sizes2 :: sizes3) =
  workspace_extent (sizes1 ++ sizes2 ++ sizes3).
Proof.
  intro Ha. rewrite !workspace_extent_app, workspace_extent_cons.
  destruct (workspace_extent_multiple sizes2) as (q & Hq).
  rewrite Hq at 1. rewrite round_up_aligned by assumption. now rewrite <- Hq.
Qed.

Lemma nested_child_sizes (xs ys zs : list Op) (problem_shape : ProblemShape)
    (args_xs : tuple Arguments xs) (args_ys : tuple Arguments ys)
    (args_zs : tuple Arguments zs) :
  valid_alignment ->
  workspace_extent (child_sizes ys problem_shape args_ys) < size_modulus ->
  child_sizes (xs ++ Sm90VisitorImplBase ys :: zs) problem_shape
    (nested_args xs ys zs args_xs args_ys args_zs) =
  child_sizes xs problem_shape args_xs
    ++ workspace_extent (child_sizes ys problem_shape args_ys)
    :: child_sizes zs problem_shape args_zs.
Proof.
  intros Hv Hlt. unfold nested_args. rewrite child_sizes_app.
  cbn [child_sizes fst snd]. now rewrite get_workspace_size_extent.
Qed.

Lemma flat_child_sizes (xs ys zs : list Op) (problem_shape : ProblemShape)
    (args_xs : tuple Arguments xs) (args_ys : tuple Arguments ys)
    (args_zs : tuple Arguments zs) :
  child_sizes (xs ++ ys ++ zs) problem_shape
    (flat_args xs ys zs args_xs args_ys args_zs) =
  child_sizes xs problem_shape args_xs
    ++ child_sizes ys problem_shape args_ys
    ++ child_sizes zs problem_shape args_zs.
Proof. unfold flat_args. now rewrite !child_sizes_app. Qed.

Lemma fail_fast_app (calls1 calls2 : list (Device -> Status * Device))
    (dev : Device) :
  fail_fast (calls1 ++ calls2) dev =
  (let (status, dev') := fail_fast calls1 dev in
   if Status_eqb status kSuccess then fail_fast calls2 dev' else (status, dev')).
Proof.
  revert dev. induction calls1 as [|call calls1 IH]; intro dev; simpl.
  - reflexivity.
  - destruct (call dev) as [status dev1].
    destruct (Status_eqb status kSuccess) eqn:E; [apply IH|].
    now rewrite E.
Qed.

(** A call that is itself a chain can be replaced by the calls of that
    chain. *)
Lemma fail_fast_nested (calls1 inner calls2 : list (Device -> Status * Device))
    (call : Device -> Status * Device) (dev : Device) :
  (forall dev0, call dev0 = fail_fast inner dev0) ->
  fail_fast (calls1 ++ call :: calls2) dev =
  fail_fast (calls1 ++ inner ++ calls2) dev.
Proof.
  intro H. rewrite !fail_fast_app.
  destruct (fail_fast calls1 dev) as [status dev1].
  destruct (Status_eqb status kSuccess); [|reflexivity].
  simpl. rewrite H, fail_fast_app. reflexivity.
Qed.

(** X20: nesting does not change [can_implement]: a composite with an inner
    composite among its operands is implementable exactly when the composite
    that lists the inner operands in its place is. *)
Theorem nested_can_implement (xs ys zs : list Op) (problem_shape : ProblemShape)
    (args_xs : tuple Arguments xs) (args_ys : tuple Arguments ys)
    (args_zs : tuple Arguments zs) :
  can_implement (Sm90VisitorImplBase (xs ++ Sm90VisitorImplBase ys :: zs))
    problem_shape (nested_args xs ys zs args_xs args_ys args_zs) =
  can_implement (Sm90VisitorImplBase (xs ++ ys ++ zs))
    problem_shape (flat_args xs ys zs args_xs args_ys args_zs).
Proof.
  rewrite !can_implement_forallb. unfold nested_args, flat_args.
  rewrite !children_can_implement_app. cbn [children_can_implement fst snd].
  rewrite can_implement_forallb, !forallb_app. simpl forallb at 2.
  reflexivity.
Qed.

(** X21: nesting costs no workspace: without overflow the size of a
    composite with an inner composite among its operands is the size of the
    composite that lists the inner operands in its place, the inner size
    being a multiple of the alignment already. *)
Theorem nested_get_workspace_size (xs ys zs : list Op)
    (problem_shape : ProblemShape)
    (args_xs : tuple Arguments xs) (args_ys : tuple Arguments ys)
    (args_zs : tuple Arguments zs) :
  valid_alignment ->
  workspace_extent
    (child_sizes (xs ++ ys ++ zs) problem_shape
       (flat_args xs ys zs args_xs args_ys args_zs)) < size_modulus ->
  get_workspace_size (Sm90VisitorImplBase (xs ++ Sm90VisitorImplBase ys :: zs))
    problem_shape (nested_args xs ys zs args_xs args_ys args_zs) =
  get_workspace_size (Sm90VisitorImplBase (xs ++ ys ++ zs))
    problem_shape (flat_args xs ys zs args_xs args_ys args_zs).
Proof.
  intros Hv Hlt. pose proof (valid_alignment_pos Hv) as Ha.
  rewrite (get_workspace_size_extent (xs ++ ys ++ zs)) by assumption.
  rewrite flat_child_sizes in *.
  assert (Hys : workspace_extent (child_sizes ys problem_shape args_ys)
                < size_modulus).
  { rewrite !workspace_extent_app in Hlt. lia. }
  rewrite get_workspace_size_extent;
    rewrite ?nested_child_sizes, ?workspace_extent_nested by assumption;
    try assumption.
  reflexivity.
Qed.

(** X22: nesting does not change the initialization: in a buffer that
    fits, [initialize_workspace] of a composite with an inner composite
    among its operands runs the same children on the same pointers, in the
    same order and with the same early return, as the composite that lists
    the inner operands in its place. *)
Theorem nested_initialize_workspace (xs ys zs : list Op)
    (problem_shape : ProblemShape)
    (args_xs : tuple Arguments xs) (args_ys : tuple Arguments ys)
    (args_zs : tuple Arguments zs)
    (workspace : ptr) (stream : cudaStream_t)
    (cuda_adapter : option CudaHostAdapter) (dev : Device) :
  valid_alignment ->
  buffer_fits workspace
    (child_sizes (xs ++ ys ++ zs) problem_shape
       (flat_args xs ys zs args_xs args_ys args_zs)) ->
  initialize_workspace (Sm90VisitorImplBase (xs ++ Sm90VisitorImplBase ys :: zs))
    problem_shape (nested_args xs ys zs args_xs args_ys args_zs)
    workspace stream cuda_adapter dev =
  initialize_workspace (Sm90VisitorImplBase (xs ++ ys ++ zs))
    problem_shape (flat_args xs ys zs args_xs args_ys args_zs)
    workspace stream cuda_adapter dev.
Proof.
  intros Hv Hfit. pose proof (valid_alignment_pos Hv) as Ha.
  rewrite !initialize_workspace_chain.
  rewrite (initialize_workspaces_exact (xs ++ ys ++ zs)) by assumption.
  rewrite flat_child_sizes in *.
  set (sizes_xs := child_sizes xs problem_shape args_xs) in *.
  set (sizes_ys := child_sizes ys problem_shape args_ys) in *.
  set (sizes_zs := child_sizes zs problem_shape args_zs) in *.
  assert (Hext : workspace_extent (sizes_xs ++ sizes_ys ++ sizes_zs) =
                 workspace_extent sizes_xs + workspace_extent sizes_ys
                 + workspace_extent sizes_zs)
    by (rewrite !workspace_extent_app; lia).
  destruct Hfit as [Hnull Hfit]. unfold ptr, nullptr in *.
  rewrite Hext in Hnull, Hfit.
  assert (Hys : workspace_extent sizes_ys < size_modulus) by lia.
  assert (Hnested : buffer_fits workspace
            (child_sizes (xs ++ Sm90VisitorImplBase ys :: zs) problem_shape
               (nested_args xs ys zs args_xs args_ys args_zs))).
  { rewrite nested_child_sizes by assumption. fold sizes_xs sizes_ys sizes_zs.
    unfold buffer_fits, ptr, nullptr.
    rewrite workspace_extent_nested, Hext by assumption.
    split; [exact Hnull | exact Hfit]. }
  rewrite initialize_workspaces_exact by assumption.
  rewrite nested_child_sizes by assumption. fold sizes_xs sizes_ys sizes_zs.
  rewrite !map_app, !prefix_offsets_app. cbn [map prefix_offsets].
  rewrite !workspace_extent_sum.
  destruct (workspace_extent_multiple sizes_ys) as (q & Hq).
  assert (Hround : round_up (workspace_extent sizes_ys) = workspace_extent sizes_ys).
  { rewrite Hq. now apply round_up_aligned. }
  rewrite Hround.
  unfold nested_args, flat_args.
  rewrite !children_initialize_app
    by (rewrite prefix_offsets_length, length_map;
        unfold sizes_xs, sizes_ys; apply child_sizes_length).
  cbn [children_initialize fst snd hd tl].
  apply fail_fast_nested. intro dev0.
  rewrite initialize_workspace_chain, initialize_workspaces_exact;
    [reflexivity | assumption |].
  fold sizes_ys. unfold buffer_fits, ptr, nullptr. split; [|lia].
  destruct Hnull as [Hnn | Hzero]; [left | right]; lia.
Qed.

End HostApi.

Arguments Arguments {_ _ _ _} _.
Arguments Params {_ _ _ _} _.
Arguments to_underlying_arguments {_ _ _ _} _ _ _ _.
Arguments can_implement {_ _ _ _} _ _ _.
Arguments get_workspace_size {_ _ _ _} _ _ _.
Arguments initialize_workspace {_ _ _ _} _ _ _ _ _ _ _.
Arguments Sm90VisitorImplBase {_ _ _ _} _ _.
Arguments Sm90TreeVisitor {_ _ _ _} _ _ _.
Arguments child_workspaces {_ _ _ _} _ _ _ _ _.
Arguments child_sizes {_ _ _ _} _ _ _.
Arguments initialize_workspaces {_ _ _ _} _ _ _ _ _.
Arguments children_params {_ _ _ _} _ _ _ _.
Arguments children_can_implement {_ _ _ _} _ _ _.
Arguments children_initialize {_ _ _ _} _ _ _ _ _ _.
Arguments child_strides {_ _ _ _} _ _ _ _.
Arguments buffer_fits _ _ _ : clear implicits.

(** ** A concrete fusion node, for evaluation

    A reduction-like node: its argument is the number of scratch bytes it
    needs, its [Params] keep the workspace pointer it is handed, and its
    initialization appends that pointer to the log that stands for the
    device. *)

Definition MNKL : Type := N * N * N * N.

Definition scratch_node : Op MNKL unit unit (list ptr) := {|
  Arguments := size_t;
  Params := ptr;
  to_underlying_arguments := fun _ _ workspace => workspace;
  can_implement := fun _ _ => true;
  get_workspace_size := fun _ bytes => bytes;
  initialize_workspace := fun _ _ workspace _ _ log => (kSuccess, log ++ [workspace])
|}.

(** A node whose initialization fails. *)
Definition failing_node : Op MNKL unit unit (list ptr) := {|
  Arguments := size_t;
  Params := ptr;
  to_underlying_arguments := fun _ _ workspace => workspace;
  can_implement := fun _ _ => false;
  get_workspace_size := fun _ bytes => bytes;
  initialize_workspace := fun _ _ workspace _ _ log => (kError 7, log ++ [workspace])
|}.

Definition shape_37_64_96 : MNKL := (37, 64, 96, 1).

Example generic_form_layout :
  let ops := [scratch_node; scratch_node; scratch_node; scratch_node; scratch_node] in
  let args : Arguments (Sm90VisitorImplBase 16 ops) := (1, (20, (0, (16, (3, tt))))) in
  child_workspaces 16 ops shape_37_64_96 args 4096 = [4096; 4112; 4144; 4144; 4160] /\
  initialize_workspaces 16 ops shape_37_64_96 args 4096 = [4096; 4112; 4144; 4144; 4160] /\
  get_workspace_size (Sm90VisitorImplBase 16 ops) shape_37_64_96 args = 80.
Proof. vm_compute. repeat split. Qed.

(** A tree of trees: a chain tree of three nodes (a specialization) as the
    first operand of a five-operand node (the generic form). *)
Example nested_tree_layout :
  let inner := Sm90TreeVisitor 16 scratch_node [scratch_node; scratch_node] in
  let ops := [inner; scratch_node; scratch_node; scratch_node; scratch_node] in
  let args : Arguments (Sm90VisitorImplBase 16 ops) :=
    ((8, (8, (1, tt))), (4, (4, (4, (4, tt))))) in
  get_workspace_size inner shape_37_64_96 (8, (8, (1, tt))) = 48 /\
  to_underlying_arguments (Sm90VisitorImplBase 16 ops) shape_37_64_96 args 4096 =
    ((4096, (4104, (4112, tt))), (4144, (4160, (4176, (4192, tt))))) /\
  get_workspace_size (Sm90VisitorImplBase 16 ops) shape_37_64_96 args = 112.
Proof. vm_compute. repeat split. Qed.

Example can_implement_example :
  can_implement (Sm90VisitorImplBase 16 [scratch_node; scratch_node; scratch_node])
    shape_37_64_96 (1, (2, (3, tt))) = true /\
  can_implement (Sm90VisitorImplBase 16 [scratch_node; failing_node; scratch_node])
    shape_37_64_96 (1, (2, (3, tt))) = false /\
  can_implement
    (Sm90VisitorImplBase 16
       [scratch_node; scratch_node; scratch_node; scratch_node; failing_node])
    shape_37_64_96 (1, (2, (3, (4, (5, tt))))) = false.
Proof. repeat split. Qed.

(** A failing second child stops the chain: the third child is not
    initialized, in a specialization and in the generic form alike. *)
Example initialize_workspace_stops :
  initialize_workspace
    (Sm90VisitorImplBase 16 [scratch_node; failing_node; scratch_node])
    shape_37_64_96 (16, (16, (16, tt))) 4096 tt None []
    = (kError 7, [4096; 4112]) /\
  initialize_workspace
    (Sm90VisitorImplBase 16
       [scratch_node; failing_node; scratch_node; scratch_node; scratch_node])
    shape_37_64_96 (16, (16, (16, (16, (16, tt))))) 4096 tt None []
    = (kError 7, [4096; 4112]).
Proof. vm_compute. split; reflexivity. Qed.

(** C1: in [Sm90VisitorImplBase<Op0, Op1>] with a first child of one byte,
    [to_underlying_arguments] hands the second child the pointer
    [workspace + 1], while [initialize_workspace] prepares [workspace + 16]
    for it and [get_workspace_size] counts sixteen bytes for the first
    child. *)
Theorem specialized_layout_mismatch :
  let ops := [scratch_node; scratch_node] in
  let args : Arguments (Sm90VisitorImplBase 16 ops) := (1, (1, tt)) in
  to_underlying_arguments (Sm90VisitorImplBase 16 ops) shape_37_64_96 args 4096
    = (4096, (4097, tt)) /\
  child_workspaces 16 ops shape_37_64_96 args 4096 = [4096; 4097] /\
  initialize_workspaces 16 ops shape_37_64_96 args 4096 = [4096; 4112] /\
  initialize_workspace (Sm90VisitorImplBase 16 ops) shape_37_64_96 args 4096 tt None []
    = (kSuccess, [4096; 4112]) /\
  get_workspace_size (Sm90VisitorImplBase 16 ops) shape_37_64_96 args = 32.
Proof. vm_compute. repeat split. Qed.

Lemma child_regions_within_and_disjoint_witness :
  let ops := [scratch_node; scratch_node; scratch_node] in
  let args : Arguments (Sm90VisitorImplBase 16 ops) := (1, (20, (3, tt))) in
  valid_alignment 16 /\
  buffer_fits 16 4096 (child_sizes ops shape_37_64_96 args) /\
  length (combine (child_workspaces 16 ops shape_37_64_96 args 4096)
            (child_sizes ops shape_37_64_96 args)) = length ops /\
  Forall (region_within 4096
            (get_workspace_size (Sm90VisitorImplBase 16 ops) shape_37_64_96 args))
    (combine (child_workspaces 16 ops shape_37_64_96 args 4096)
       (child_sizes ops shape_37_64_96 args)) /\
  ForallOrdPairs regions_disjoint
    (combine (child_workspaces 16 ops shape_37_64_96 args 4096)
       (child_sizes ops shape_37_64_96 args)).
Proof.
  intros ops args.
  assert (Hv : valid_alignment 16) by (exists 4; split; [lia | reflexivity]).
  assert (Hfit : buffer_fits 16 4096 (child_sizes ops shape_37_64_96 args))
    by (split; [left; discriminate | vm_compute; reflexivity]).
  split; [exact Hv|]. split; [exact Hfit|].
  exact (child_regions_within_and_disjoint MNKL unit unit (list ptr) 16 ops
           shape_37_64_96 args 4096 Hv Hfit).
Defined.

(** C9: with two buffers of the same size at different addresses, a node
    that keeps its workspace pointer yields different [Params]. *)
Lemma to_underlying_arguments_depends_on_address :
  let ops := [scratch_node] in
  let args : Arguments (Sm90VisitorImplBase 16 ops) := (16, tt) in
  get_workspace_size (Sm90VisitorImplBase 16 ops) shape_37_64_96 args = 16 /\
  to_underlying_arguments (Sm90VisitorImplBase 16 ops) shape_37_64_96 args 4096 <>
  to_underlying_arguments (Sm90VisitorImplBase 16 ops) shape_37_64_96 args 8192.
Proof. split; [reflexivity | vm_compute; discriminate]. Qed.

Lemma to_underlying_arguments_relocates_witness :
  let ops := [scratch_node; scratch_node] in
  let args : Arguments (Sm90VisitorImplBase 16 ops) := (5, (16, tt)) in
  to_underlying_arguments (Sm90VisitorImplBase 16 ops) shape_37_64_96 args 4096 =
    children_params ops shape_37_64_96 args
      (map (N.add 4096) (prefix_offsets 0 (child_strides 16 ops shape_37_64_96 args))) /\
  to_underlying_arguments (Sm90VisitorImplBase 16 ops) shape_37_64_96 args 8192 =
    children_params ops shape_37_64_96 args
      (map (N.add 8192) (prefix_offsets 0 (child_strides 16 ops shape_37_64_96 args))) /\
  (4096 = 8192 ->
   to_underlying_arguments (Sm90VisitorImplBase 16 ops) shape_37_64_96 args 4096 =
   to_underlying_arguments (Sm90VisitorImplBase 16 ops) shape_37_64_96 args 8192).
Proof.
  intros ops args.
  apply (to_underlying_arguments_relocates MNKL unit unit (list ptr) 16 ops
           shape_37_64_96 args 4096 8192).
  - exists 4. split; [lia | reflexivity].
  - split; [left; discriminate | vm_compute; reflexivity].
  - split; [left; discriminate | vm_compute; reflexivity].
Defined.

(** ** Runtime queries of [Sm90VisitorImpl] *)

(** What a constructed fusion node answers at kernel run time.  [Self] is
    the node object; both queries are [const] member functions. *)
Record Visitor : Type := {
  Self : Type;
  is_producer_load_needed : Self -> bool;
  is_C_load_needed : Self -> bool
}.

(** The member [tuple<Ops...> ops]. *)
Fixpoint ops_tuple (Ops : list Visitor) : Type :=
  match Ops with
  | [] => unit
  | Op0 :: Ops' => (Self Op0 * ops_tuple Ops')%type
  end.

(** Modelled from the spec: [cute::apply] (cute/algorithm) is not among the
    sources at hand.  [cute::apply(ops, g)] calls [g] with the elements of
    the tuple; with the fold expression [(false || ... || op.query())] of
    the lambda this is the left fold of [||] over the children's answers,
    starting from [false]. *)
Fixpoint apply_or (query : forall Op0 : Visitor, Self Op0 -> bool)
    (Ops : list Visitor) : ops_tuple Ops -> bool -> bool :=
  match Ops with
  | [] => fun _ acc => acc
  | Op0 :: Ops' => fun ops acc =>
      apply_or query Ops' (snd ops) (acc || query Op0 (fst ops))
  end.

Definition Sm90VisitorImpl_queries (Ops : list Visitor) : Visitor := {|
  Self := ops_tuple Ops;
  is_producer_load_needed := fun ops => apply_or is_producer_load_needed Ops ops false;
  is_C_load_needed := fun ops => apply_or is_C_load_needed Ops ops false
|}.

(** The children's own answers, in declared order. *)
Fixpoint children_answers (query : forall Op0 : Visitor, Self Op0 -> bool)
    (Ops : list Visitor) : ops_tuple Ops -> list bool :=
  match Ops with
  | [] => fun _ => []
  | Op0 :: Ops' => fun ops =>
      query Op0 (fst ops) :: children_answers query Ops' (snd ops)
  end.

(** Child by child: a child that needs the load of C needs the producer
    load. *)
Fixpoint children_C_load_implies_producer_load (Ops : list Visitor)
  : ops_tuple Ops -> Prop :=
  match Ops with
  | [] => fun _ => True
  | Op0 :: Ops' => fun ops =>
      (is_C_load_needed Op0 (fst ops) = true ->
       is_producer_load_needed Op0 (fst ops) = true) /\
      children_C_load_implies_producer_load Ops' (snd ops)
  end.

Lemma apply_or_existsb (query : forall Op0 : Visitor, Self Op0 -> bool)
    (Ops : list Visitor) (ops : ops_tuple Ops) (acc : bool) :
  apply_or query Ops ops acc =
  acc || existsb (fun answer => answer) (children_answers query Ops ops).
Proof.
  revert acc. induction Ops as [|Op0 Ops IH]; intro acc; simpl.
  - now rewrite orb_false_r.
  - rewrite IH. now rewrite orb_assoc.
Qed.

Lemma apply_or_true_iff (query : forall Op0 : Visitor, Self Op0 -> bool)
    (Ops : list Visitor) (ops : ops_tuple Ops) :
  apply_or query Ops ops false = true <->
  Exists (fun answer => answer = true) (children_answers query Ops ops).
Proof.
  rewrite apply_or_existsb. simpl. rewrite existsb_exists, Exists_exists.
  reflexivity.
Qed.

(** C5: each composite query is the OR of the children's answers: it is true
    exactly when some child answers true. *)
Theorem queries_are_disjunctions (Ops : list Visitor) (ops : ops_tuple Ops) :
  (is_producer_load_needed (Sm90VisitorImpl_queries Ops) ops = true <->
   Exists (fun answer => answer = true)
     (children_answers is_producer_load_needed Ops ops)) /\
  (is_C_load_needed (Sm90VisitorImpl_queries Ops) ops = true <->
   Exists (fun answer => answer = true)
     (children_answers is_C_load_needed Ops ops)).
Proof. split; apply apply_or_true_iff. Qed.

Lemma apply_or_monotone (Ops : list Visitor) (ops : ops_tuple Ops)
    (acc_C acc_load : bool) :
  children_C_load_implies_producer_load Ops ops ->
  (acc_C = true -> acc_load = true) ->
  apply_or is_C_load_needed Ops ops acc_C = true ->
  apply_or is_producer_load_needed Ops ops acc_load = true.
Proof.
  revert acc_C acc_load.
  induction Ops as [|Op0 Ops IH]; intros acc_C acc_load Hch Hacc; simpl in *.
  - exact Hacc.
  - destruct Hch as [H0 Hch]. apply IH; [exact Hch|].
    intro H. apply orb_true_iff in H. apply orb_true_iff.
    destruct H as [H|H]; [left; now apply Hacc | right; now apply H0].
Qed.

(** C10: when each child that needs the load of C also needs the producer
    load, so does the composite. *)
Theorem C_load_implies_producer_load (Ops : list Visitor) (ops : ops_tuple Ops) :
  children_C_load_implies_producer_load Ops ops ->
  is_C_load_needed (Sm90VisitorImpl_queries Ops) ops = true ->
  is_producer_load_needed (Sm90VisitorImpl_queries Ops) ops = true.
Proof.
  intros Hch. simpl. apply apply_or_monotone; [exact Hch|].
  intro H. exact H.
Qed.

(** A node with a per-batch beta: the producer load is always needed, the
    load of C only for the batches whose beta is not zero. *)
Definition batched_beta : Visitor := {|
  Self := N;
  is_producer_load_needed := fun _ => true;
  is_C_load_needed := fun beta => negb (beta =? 0)
|}.

(** A node that loads nothing. *)
Definition accumulator_fetch : Visitor := {|
  Self := unit;
  is_producer_load_needed := fun _ => false;
  is_C_load_needed := fun _ => false
|}.

Lemma C_load_implies_producer_load_witness :
  let Ops := [accumulator_fetch; batched_beta; accumulator_fetch] in
  let ops : ops_tuple Ops := (tt, (2, (tt, tt))) in
  children_C_load_implies_producer_load Ops ops /\
  is_C_load_needed (Sm90VisitorImpl_queries Ops) ops = true /\
  is_producer_load_needed (Sm90VisitorImpl_queries Ops) ops = true.
Proof.
  intros Ops ops.
  assert (Hch : children_C_load_implies_producer_load Ops ops)
    by (simpl; repeat split; auto; discriminate).
  assert (HC : is_C_load_needed (Sm90VisitorImpl_queries Ops) ops = true)
    by reflexivity.
  split; [exact Hch|]. split; [exact HC|].
  exact (C_load_implies_producer_load Ops ops Hch HC).
Defined.

(** *** Nested composites *)

(** The member tuple of the operands [Ops1 ++ Ops2]. *)
Fixpoint ops_tuple_app (Ops1 Ops2 : list Visitor)
  : ops_tuple Ops1 -> ops_tuple Ops2 -> ops_tuple (Ops1 ++ Ops2) :=
  match Ops1 with
  | [] => fun _ ops2 => ops2
  | _ :: Ops1' => fun ops1 ops2 =>
      (fst ops1, ops_tuple_app Ops1' Ops2 (snd ops1) ops2)
  end.

Lemma children_answers_app (query : forall Op0 : Visitor, Self Op0 -> bool)
    (Ops1 Ops2 : list Visitor) (ops1 : ops_tuple Ops1) (ops2 : ops_tuple Ops2) :
  children_answers query (Ops1 ++ Ops2) (ops_tuple_app Ops1 Ops2 ops1 ops2) =
  children_answers query Ops1 ops1 ++ children_answers query Ops2 ops2.
Proof.
  induction Ops1 as [|Op0 Ops1 IH]; simpl; [reflexivity | now rewrite IH].
Qed.

Lemma apply_or_nested (query : forall Op0 : Visitor, Self Op0 -> bool)
    (Xs Ys Zs : list Visitor) (Nest : Visitor) (nest : Self Nest)
    (xs : ops_tuple Xs) (ys : ops_tuple Ys) (zs : ops_tuple Zs) :
  query Nest nest = apply_or query Ys ys false ->
  apply_or query (Xs ++ Nest :: Zs)
    (ops_tuple_app Xs (Nest :: Zs) xs (nest, zs)) false =
  apply_or query (Xs ++ Ys ++ Zs)
    (ops_tuple_app Xs (Ys ++ Zs) xs (ops_tuple_app Ys Zs ys zs)) false.
Proof.
  intro H. rewrite !apply_or_existsb, !children_answers_app.
  cbn [children_answers fst snd]. rewrite H, apply_or_existsb.
  rewrite !existsb_app. simpl. reflexivity.
Qed.

(** X23: nesting does not change the queries: a composite with an inner
    composite among its operands needs the producer load, and the load of
    C, exactly when the composite that lists the inner operands in its place
    does. *)
Theorem nested_queries (Xs Ys Zs : list Visitor)
    (xs : ops_tuple Xs) (ys : ops_tuple Ys) (zs : ops_tuple Zs) :
  let nested :=
    ops_tuple_app Xs (Sm90VisitorImpl_queries Ys :: Zs) xs (ys, zs) in
  let flat := ops_tuple_app Xs (Ys ++ Zs) xs (ops_tuple_app Ys Zs ys zs) in
  is_producer_load_needed
    (Sm90VisitorImpl_queries (Xs ++ Sm90VisitorImpl_queries Ys :: Zs)) nested =
  is_producer_load_needed (Sm90VisitorImpl_queries (Xs ++ Ys ++ Zs)) flat /\
  is_C_load_needed
    (Sm90VisitorImpl_queries (Xs ++ Sm90VisitorImpl_queries Ys :: Zs)) nested =
  is_C_load_needed (Sm90VisitorImpl_queries (Xs ++ Ys ++ Zs)) flat.
Proof.
  intros nested flat. subst nested flat.
  split; cbn [Sm90VisitorImpl_queries is_producer_load_needed is_C_load_needed];
    apply apply_or_nested; reflexivity.
Qed.

(** ** The [visit] callbacks of the three visitors *)

Section Visit.

(** [Array<Element, FragmentSize>], for whichever element type. *)
Variable Array : Type.
(** The value-initialized fragment [Array<ElementCompute, FragmentSize>{}]. *)
Variable Array_zero : Array.
(** [NumericArrayConverter<ElementCompute, ElementOutput, FragmentSize>]
    (cutlass/numeric_conversion.h, not among the sources at hand). *)
Variable convert_output : Array -> Array.
(** What a callback may read and write besides its arguments: registers,
    shared memory, its own members. *)
Variable World : Type.

(** A computation of the store warp. *)
Definition Run (A : Type) : Type := World -> A * World.

Definition ret {A : Type} (a : A) : Run A := fun w => (a, w).

Definition bind {A B : Type} (c : Run A) (k : A -> Run B) : Run B :=
  fun w => let (a, w') := c w in k a w'.

Notation "x <- c ;; k" := (bind c (fun x => k))
  (at level 61, c at next level, right associativity).

(** The consumer store callbacks of one node; [frg_inputs] is the pack of
    extra fragments, empty for a nullary node. *)
Record Callbacks : Type := {
  visit : Array -> Z -> Z -> Z -> list Array -> Run Array
}.

(** Stands for an element a [get<I>] with [I] out of range would name; the
    compiler rejects such an index. *)
Definition no_callbacks : Callbacks :=
  {| visit := fun frg_acc _ _ _ _ => ret frg_acc |}.

Definition get {X : Type} (I : nat) (t : list X) (d : X) : X := nth I t d.

(** Modelled from the spec: [cute::detail::tapply] and [cute::for_each]
    (cute/algorithm) are not among the sources at hand.
    [tapply(t, f, g, seq<I...>)] is [g(f(get<I>(t))...)]: [f] runs on the
    selected elements in index order, then [g] receives the results. *)
Fixpoint transform_seq {X R : Type} (f : X -> Run R) (xs : list X)
  : Run (list R) :=
  match xs with
  | [] => ret []
  | x :: xs' => r <- f x ;; rs <- transform_seq f xs' ;; ret (r :: rs)
  end.

Definition tapply {X R T : Type} (t : list X) (d : X) (f : X -> Run R)
    (g : list R -> Run T) (I : list nat) : Run T :=
  rs <- transform_seq f (map (fun i => get i t d) I) ;; g rs.

Fixpoint for_each {X : Type} (xs : list X) (f : X -> Run unit) : Run unit :=
  match xs with
  | [] => ret tt
  | x :: xs' => _ <- f x ;; for_each xs' f
  end.

Definition make_seq (n : nat) : list nat := seq 0 n.

(** *** [Sm90TreeVisitor<NodeOp, ChildOps...>]: the callbacks tuple is that
    of [Sm90VisitorImpl<ChildOps..., NodeOp>]. *)

Definition tree_callbacks_tuple (NodeOp : Callbacks) (ChildOps : list Callbacks)
  : list Callbacks := ChildOps ++ [NodeOp].

Definition Sm90TreeVisitor_visit (NodeOp : Callbacks) (ChildOps : list Callbacks)
    (frg_acc : Array) (epi_v epi_m epi_n : Z) : Run Array :=
  let callbacks_tuple := tree_callbacks_tuple NodeOp ChildOps in
  let Rm1 := length ChildOps in
  tapply callbacks_tuple no_callbacks
    (fun child_callbacks => visit child_callbacks frg_acc epi_v epi_m epi_n [])
    (fun frg_inputs =>
       visit (get Rm1 callbacks_tuple no_callbacks) frg_acc epi_v epi_m epi_n frg_inputs)
    (make_seq Rm1).

(** The chain tree in the spec's words: the children are evaluated first, in
    declared order and without extra inputs; the node then receives their
    outputs as extra arguments. *)
Fixpoint visit_children (ChildOps : list Callbacks)
    (frg_acc : Array) (epi_v epi_m epi_n : Z) : Run (list Array) :=
  match ChildOps with
  | [] => ret []
  | child :: ChildOps' =>
      frg_child <- visit child frg_acc epi_v epi_m epi_n [] ;;
      frg_rest <- visit_children ChildOps' frg_acc epi_v epi_m epi_n ;;
      ret (frg_child :: frg_rest)
  end.

Definition chain_tree (NodeOp : Callbacks) (ChildOps : list Callbacks)
    (frg_acc : Array) (epi_v epi_m epi_n : Z) : Run Array :=
  frg_inputs <- visit_children ChildOps frg_acc epi_v epi_m epi_n ;;
  visit NodeOp frg_acc epi_v epi_m epi_n frg_inputs.

(** *** [Sm90SplitTreeVisitor<InputTree, OutputTree, AuxOutTrees...>]: the
    callbacks tuple is that of
    [Sm90VisitorImpl<InputTree, AuxOutTrees..., OutputTree>]. *)

Definition split_callbacks_tuple (InputTree OutputTree : Callbacks)
    (AuxOutTrees : list Callbacks) : list Callbacks :=
  InputTree :: AuxOutTrees ++ [OutputTree].

Definition Sm90SplitTreeVisitor_visit (InputTree OutputTree : Callbacks)
    (AuxOutTrees : list Callbacks)
    (frg_acc : Array) (epi_v epi_m epi_n : Z) : Run Array :=
  let callbacks_tuple := split_callbacks_tuple InputTree OutputTree AuxOutTrees in
  frg_input <-
    visit (get 0 callbacks_tuple no_callbacks) frg_acc epi_v epi_m epi_n [] ;;
  let Rm2 := length AuxOutTrees in
  _ <- for_each (make_seq Rm2)
         (fun I =>
            _ <- visit (get (I + 1) callbacks_tuple no_callbacks)
                   frg_input epi_v epi_m epi_n [] ;;
            ret tt) ;;
  visit (get (Rm2 + 1) callbacks_tuple no_callbacks) frg_input epi_v epi_m epi_n [].

(** The split tree in the spec's words: the input tree runs once on the
    accumulator; its fragment goes unchanged to every auxiliary output tree
    and to the main output tree, whose result is returned. *)
Fixpoint visit_aux_trees (AuxOutTrees : list Callbacks)
    (frg_input : Array) (epi_v epi_m epi_n : Z) : Run unit :=
  match AuxOutTrees with
  | [] => ret tt
  | aux :: AuxOutTrees' =>
      _ <- visit aux frg_input epi_v epi_m epi_n [] ;;
      visit_aux_trees AuxOutTrees' frg_input epi_v epi_m epi_n
  end.

Definition split_tree (InputTree OutputTree : Callbacks)
    (AuxOutTrees : list Callbacks)
    (frg_acc : Array) (epi_v epi_m epi_n : Z) : Run Array :=
  frg_input <- visit InputTree frg_acc epi_v epi_m epi_n [] ;;
  _ <- visit_aux_trees AuxOutTrees frg_input epi_v epi_m epi_n ;;
  visit OutputTree frg_input epi_v epi_m epi_n [].

(** *** [Sm90TopologicalVisitor<ElementCompute, EdgeTuple, Ops...>] *)

(** Assignment through the reference [get<I>(frg_compute_tuple)]. *)
Fixpoint update {X : Type} (idx : nat) (x : X) (t : list X) : list X :=
  match t, idx with
  | [], _ => []
  | _ :: t', O => x :: t'
  | y :: t', S idx' => y :: update idx' x t'
  end.

(** [cute::detail::apply(frg_compute_tuple, fn, edge_seq)] hands [fn] the
    elements [get<E>(frg_compute_tuple)] for the indices [E] of [edge_seq]. *)
Definition select (frg_compute_tuple : list Array) (edge_seq : list nat)
  : list Array :=
  map (fun E => get E frg_compute_tuple Array_zero) edge_seq.

(** The transform part of the three-tuple [tapply]: for each index [idx] of
    the sequence the lambda receives [get<idx>(EdgeTuple{})],
    [get<idx>(callbacks_tuple)] and a reference to
    [get<idx>(frg_compute_tuple)], which it assigns. *)
Fixpoint visit_in_order (EdgeTuple : list (list nat))
    (callbacks_tuple : list Callbacks)
    (frg_acc : Array) (epi_v epi_m epi_n : Z)
    (indices : list nat) (frg_compute_tuple : list Array) : Run (list Array) :=
  match indices with
  | [] => ret frg_compute_tuple
  | idx :: indices' =>
      let edge_seq := get idx EdgeTuple [] in
      let callbacks := get idx callbacks_tuple no_callbacks in
      frg_output <-
        visit callbacks frg_acc epi_v epi_m epi_n
          (select frg_compute_tuple edge_seq) ;;
      let frg_compute := convert_output frg_output in
      visit_in_order EdgeTuple callbacks_tuple frg_acc epi_v epi_m epi_n indices'
        (update idx frg_compute frg_compute_tuple)
  end.

Definition Sm90TopologicalVisitor_visit (EdgeTuple : list (list nat))
    (callbacks_tuple : list Callbacks)
    (frg_acc : Array) (epi_v epi_m epi_n : Z) : Run Array :=
  let Rm1 := (length callbacks_tuple - 1)%nat in
  let frg_compute_tuple := repeat Array_zero Rm1 in
  frg_compute_tuple <-
    visit_in_order EdgeTuple callbacks_tuple frg_acc epi_v epi_m epi_n
      (make_seq Rm1) frg_compute_tuple ;;
  visit (get Rm1 callbacks_tuple no_callbacks) frg_acc epi_v epi_m epi_n
    (select frg_compute_tuple (get Rm1 EdgeTuple [])).

(** The topological visitor in the spec's words: the nodes run in the given
    order; each node receives the outputs computed before it, picked by its
    edge indices, every output being converted to the shared compute type
    before a later node reads it; the final node's result is returned. *)
Fixpoint evaluate_in_order (nodes : list (list nat * Callbacks))
    (frg_acc : Array) (epi_v epi_m epi_n : Z)
    (computed : list Array) : Run (list Array) :=
  match nodes with
  | [] => ret computed
  | (edge_seq, callbacks) :: nodes' =>
      frg_output <-
        visit callbacks frg_acc epi_v epi_m epi_n (select computed edge_seq) ;;
      evaluate_in_order nodes' frg_acc epi_v epi_m epi_n
        (computed ++ [convert_output frg_output])
  end.

Definition topological_order (intermediate : list (list nat * Callbacks))
    (final : list nat * Callbacks)
    (frg_acc : Array) (epi_v epi_m epi_n : Z) : Run Array :=
  computed <- evaluate_in_order intermediate frg_acc epi_v epi_m epi_n [] ;;
  visit (snd final) frg_acc epi_v epi_m epi_n (select computed (fst final)).

(** *** Lists read by index *)

Lemma get_middle {X : Type} (l r : list X) (x d : X) :
  get (length l) (l ++ x :: r) d = x.
Proof. unfold get. apply nth_middle. Qed.

Lemma map_get_seq {X : Type} (l r : list X) (d : X) :
  map (fun i => get i (l ++ r) d) (seq 0 (length l)) = l.
Proof.
  unfold get. induction l as [|x l IH]; simpl.
  - reflexivity.
  - f_equal. rewrite <- seq_shift, map_map. exact IH.
Qed.

Lemma bind_ext {A B : Type} (c1 c2 : Run A) (k1 k2 : A -> Run B) (w : World) :
  c1 w = c2 w -> (forall a w', k1 a w' = k2 a w') ->
  bind c1 k1 w = bind c2 k2 w.
Proof.
  intros Hc Hk. unfold bind. rewrite Hc. destruct (c2 w) as [a w']. apply Hk.
Qed.

Lemma transform_seq_children (ChildOps : list Callbacks)
    (frg_acc : Array) (epi_v epi_m epi_n : Z) (w : World) :
  transform_seq
    (fun child_callbacks => visit child_callbacks frg_acc epi_v epi_m epi_n [])
    ChildOps w =
  visit_children ChildOps frg_acc epi_v epi_m epi_n w.
Proof.
  revert w. induction ChildOps as [|child ChildOps IH]; intro w; simpl.
  - reflexivity.
  - apply bind_ext; [reflexivity|]. intros a w'.
    apply bind_ext; [apply IH | reflexivity].
Qed.

(** C6: the visit of a chain tree first visits the children on the
    accumulator fragment, in declared order and without extra inputs, then
    returns the node's visit on the same fragment with the children's
    outputs as extra arguments. *)
Theorem tree_visit_children_first (NodeOp : Callbacks) (ChildOps : list Callbacks)
    (frg_acc : Array) (epi_v epi_m epi_n : Z) (w : World) :
  Sm90TreeVisitor_visit NodeOp ChildOps frg_acc epi_v epi_m epi_n w =
  chain_tree NodeOp ChildOps frg_acc epi_v epi_m epi_n w.
Proof.
  unfold Sm90TreeVisitor_visit, chain_tree, tapply, make_seq,
    tree_callbacks_tuple.
  rewrite map_get_seq, get_middle.
  apply bind_ext; [apply transform_seq_children | reflexivity].
Qed.

Lemma for_each_aux_trees (AuxOutTrees before : list Callbacks) (OutputTree : Callbacks)
    (frg_input : Array) (epi_v epi_m epi_n : Z) (w : World) :
  for_each (seq (length before) (length AuxOutTrees))
    (fun I =>
       _ <- visit (get I (before ++ AuxOutTrees ++ [OutputTree]) no_callbacks)
              frg_input epi_v epi_m epi_n [] ;;
       ret tt) w =
  visit_aux_trees AuxOutTrees frg_input epi_v epi_m epi_n w.
Proof.
  revert before w.
  induction AuxOutTrees as [|aux AuxOutTrees IH]; intros before w; simpl.
  - reflexivity.
  - rewrite get_middle. unfold bind at 1 2.
    unfold bind at 2.
    destruct (visit aux frg_input epi_v epi_m epi_n [] w) as [a w']. simpl.
    specialize (IH (before ++ [aux]) w').
    rewrite length_app, Nat.add_1_r in IH. simpl in IH.
    rewrite <- app_assoc in IH. exact IH.
Qed.

Lemma for_each_ext {X : Type} (xs : list X) (f g : X -> Run unit) (w : World) :
  (forall x w', f x w' = g x w') -> for_each xs f w = for_each xs g w.
Proof.
  intro H. revert w. induction xs as [|x xs IH]; intro w; simpl.
  - reflexivity.
  - apply bind_ext; [apply H | intros _ w'; apply IH].
Qed.

Lemma for_each_shift (h : nat -> nat) (Is : list nat)
    (f : nat -> Run unit) (w : World) :
  for_each (map h Is) f w = for_each Is (fun I => f (h I)) w.
Proof.
  revert w. induction Is as [|i Is IH]; intro w; simpl.
  - reflexivity.
  - apply bind_ext; [reflexivity | intros _ w'; apply IH].
Qed.

(** C7: the visit of a split tree visits the input tree once on the
    accumulator fragment, hands the resulting fragment unchanged to each
    auxiliary output tree and to the main output tree, and returns the
    result of the main output tree. *)
Theorem split_visit_fans_out (InputTree OutputTree : Callbacks)
    (AuxOutTrees : list Callbacks)
    (frg_acc : Array) (epi_v epi_m epi_n : Z) (w : World) :
  Sm90SplitTreeVisitor_visit InputTree OutputTree AuxOutTrees
    frg_acc epi_v epi_m epi_n w =
  split_tree InputTree OutputTree AuxOutTrees frg_acc epi_v epi_m epi_n w.
Proof.
  unfold Sm90SplitTreeVisitor_visit, split_tree, split_callbacks_tuple, make_seq.
  apply bind_ext; [reflexivity|]. intros frg_input w1.
  apply bind_ext.
  - rewrite (for_each_ext _ _
      (fun I =>
         _ <- visit (get (S I) ([InputTree] ++ AuxOutTrees ++ [OutputTree])
                       no_callbacks) frg_input epi_v epi_m epi_n [] ;;
         ret tt)).
    + rewrite <- (for_each_shift S (seq 0 (length AuxOutTrees))
        (fun I =>
           _ <- visit (get I ([InputTree] ++ AuxOutTrees ++ [OutputTree])
                         no_callbacks) frg_input epi_v epi_m epi_n [] ;;
           ret tt)).
      rewrite seq_shift.
      apply (for_each_aux_trees AuxOutTrees [InputTree]).
    + intros I w'. rewrite Nat.add_1_r. reflexivity.
  - intros _ w2. rewrite Nat.add_1_r.
    change (InputTree :: AuxOutTrees ++ [OutputTree])
      with ((InputTree :: AuxOutTrees) ++ [OutputTree]).
    change (S (length AuxOutTrees)) with (length (InputTree :: AuxOutTrees)).
    rewrite get_middle. reflexivity.
Qed.

Lemma select_unassigned (computed : list Array) (k : nat) (edge_seq : list nat) :
  select (computed ++ repeat Array_zero k) edge_seq = select computed edge_seq.
Proof.
  unfold select, get. apply map_ext. intro E.
  destruct (Nat.lt_ge_cases E (length computed)) as [Hlt | Hge].
  - now apply app_nth1.
  - rewrite app_nth2 by assumption.
    rewrite (nth_overflow computed) by assumption.
    apply nth_repeat.
Qed.

Lemma update_middle {X : Type} (l r : list X) (x y : X) (idx : nat) :
  length l = idx -> update idx y (l ++ x :: r) = l ++ y :: r.
Proof.
  intros <-. induction l as [|z l IH]; simpl; [reflexivity | now rewrite IH].
Qed.

Lemma get_after_map {X Y : Type} (f : X -> Y) (l : list X) (r : list Y) (y d : Y) :
  get (length l) (map f l ++ y :: r) d = y.
Proof. rewrite <- (length_map f l). apply get_middle. Qed.

Lemma select_computed (computed : list Array) (edge_seq : list nat) :
  Forall (fun E => (E < length computed)%nat) edge_seq ->
  Forall (fun frg_input => In frg_input computed) (select computed edge_seq).
Proof.
  intro H. unfold select, get. apply Forall_map.
  eapply Forall_impl; [|exact H]. intros E HE. now apply nth_In.
Qed.

Lemma visit_in_order_evaluate (rest done : list (list nat * Callbacks))
    (final : list nat * Callbacks) (computed : list Array)
    (frg_acc : Array) (epi_v epi_m epi_n : Z) (w : World) :
  length computed = length done ->
  visit_in_order
    (map fst done ++ map fst rest ++ [fst final])
    (map snd done ++ map snd rest ++ [snd final])
    frg_acc epi_v epi_m epi_n
    (seq (length done) (length rest))
    (computed ++ repeat Array_zero (length rest)) w =
  evaluate_in_order rest frg_acc epi_v epi_m epi_n computed w.
Proof.
  revert done computed w.
  induction rest as [|[edge_seq callbacks] rest IH]; intros done computed w Hlen.
  - simpl. now rewrite app_nil_r.
  - simpl. rewrite !get_after_map.
    change (Array_zero :: repeat Array_zero (length rest))
      with (repeat Array_zero (S (length rest))).
    rewrite select_unassigned.
    apply bind_ext; [reflexivity|]. intros frg_output w'.
    simpl repeat. rewrite (update_middle _ _ _ _ _ Hlen).
    specialize (IH (done ++ [(edge_seq, callbacks)])
                  (computed ++ [convert_output frg_output]) w').
    rewrite !map_app, !length_app in IH. simpl in IH.
    rewrite !Nat.add_1_r, <- !app_assoc in IH. simpl in IH.
    apply IH. now rewrite Hlen.
Qed.

(** C8: the visit of a topological visitor runs the nodes in the given
    order; each node receives the outputs computed before it that its edge
    indices pick, each output converted to the shared compute type before a
    later node reads it; the result is the final node's visit on the inputs
    its own edge indices pick.  [EdgeTuple] and the callbacks tuple have the
    same length, as the static assertion of the class requires. *)
Theorem topological_visit_in_order
    (intermediate : list (list nat * Callbacks)) (final : list nat * Callbacks)
    (frg_acc : Array) (epi_v epi_m epi_n : Z) (w : World) :
  let EdgeTuple := map fst intermediate ++ [fst final] in
  let callbacks_tuple := map snd intermediate ++ [snd final] in
  Sm90TopologicalVisitor_visit EdgeTuple callbacks_tuple
    frg_acc epi_v epi_m epi_n w =
  topological_order intermediate final frg_acc epi_v epi_m epi_n w.
Proof.
  intros EdgeTuple callbacks_tuple. subst EdgeTuple callbacks_tuple.
  unfold Sm90TopologicalVisitor_visit, topological_order, make_seq.
  rewrite length_app, length_map. simpl length.
  rewrite Nat.add_1_r. simpl Nat.sub. rewrite Nat.sub_0_r.
  apply bind_ext.
  - apply (visit_in_order_evaluate intermediate [] final []). reflexivity.
  - intros computed w'. rewrite !get_after_map. reflexivity.
Qed.

(** *** The callback bundles [ProducerLoadCallbacksImpl] and
    [ConsumerStoreCallbacksImpl] *)

(** The smem tensor, the synchronization functor and the register tensor
    of [reduce] (template parameters of the member function). *)
Variable STensor : Type.
Variable SyncFn : Type.
Variable VTensor : Type.

(** The producer load callbacks of one node: [begin], [step], [end]. *)
Record ProducerLoadCallbacks : Type := {
  load_begin : Run unit;
  load_step : ptr -> Z -> Z -> Z -> bool -> Run unit;
  load_end : Run unit
}.

(** The consumer store callbacks of one node, [visit] apart (the bundle
    deletes it): [begin], [begin_sync_needed], [begin_loop], [previsit],
    [reduce], [postreduce], [tma_store], [end_loop], [end]. *)
Record ConsumerStoreCallbacks : Type := {
  store_begin : Run unit;
  begin_sync_needed : World -> bool;
  begin_loop : Z -> Z -> Run unit;
  previsit : Z -> Z -> Z -> bool -> Run unit;
  reduce : STensor -> SyncFn -> Z -> Z -> bool -> VTensor -> Run unit;
  postreduce : Z -> Z -> Z -> bool -> Run unit;
  tma_store : Z -> Z -> Z -> bool -> Run unit;
  end_loop : Z -> Z -> Run unit;
  store_end : Run unit
}.

Definition ProducerLoadCallbacksImpl
    (callbacks_tuple : list ProducerLoadCallbacks) : ProducerLoadCallbacks := {|
  load_begin :=
    for_each callbacks_tuple (fun callbacks => load_begin callbacks);
  load_step := fun full_mbarrier_ptr epi_m epi_n load_iteration issue_tma_load =>
    for_each callbacks_tuple
      (fun callbacks =>
         load_step callbacks full_mbarrier_ptr epi_m epi_n load_iteration
           issue_tma_load);
  load_end :=
    for_each callbacks_tuple (fun callbacks => load_end callbacks)
|}.

Definition ConsumerStoreCallbacksImpl
    (callbacks_tuple : list ConsumerStoreCallbacks) : ConsumerStoreCallbacks := {|
  store_begin :=
    for_each callbacks_tuple (fun callbacks => store_begin callbacks);
  begin_sync_needed := fun w =>
    fold_left (fun needed callbacks => needed || begin_sync_needed callbacks w)
      callbacks_tuple false;
  begin_loop := fun epi_m epi_n =>
    for_each callbacks_tuple (fun callbacks => begin_loop callbacks epi_m epi_n);
  previsit := fun epi_m epi_n load_iteration is_producer_load_needed =>
    for_each callbacks_tuple
      (fun callbacks =>
         previsit callbacks epi_m epi_n load_iteration is_producer_load_needed);
  reduce := fun reduction_buffer sync_fn epi_m epi_n is_last_iteration visit_results =>
    for_each callbacks_tuple
      (fun callbacks =>
         reduce callbacks reduction_buffer sync_fn epi_m epi_n is_last_iteration
           visit_results);
  postreduce := fun epi_m epi_n store_iteration issue_smem_store =>
    for_each callbacks_tuple
      (fun callbacks =>
         postreduce callbacks epi_m epi_n store_iteration issue_smem_store);
  tma_store := fun epi_m epi_n store_iteration issue_tma_store =>
    for_each callbacks_tuple
      (fun callbacks =>
         tma_store callbacks epi_m epi_n store_iteration issue_tma_store);
  end_loop := fun epi_m epi_n =>
    for_each callbacks_tuple (fun callbacks => end_loop callbacks epi_m epi_n);
  store_end :=
    for_each callbacks_tuple (fun callbacks => store_end callbacks)
|}.

(** [using EmptyProducerLoadCallbacks = ProducerLoadCallbacksImpl<cute::tuple<>>]
    and its consumer counterpart. *)
Definition EmptyProducerLoadCallbacks : ProducerLoadCallbacks :=
  ProducerLoadCallbacksImpl [].
Definition EmptyConsumerStoreCallbacks : ConsumerStoreCallbacks :=
  ConsumerStoreCallbacksImpl [].

Lemma for_each_app {X : Type} (xs ys : list X) (f : X -> Run unit) (w : World) :
  for_each (xs ++ ys) f w = (_ <- for_each xs f ;; for_each ys f) w.
Proof.
  revert w. induction xs as [|x xs IH]; intro w; simpl.
  - reflexivity.
  - unfold bind. destruct (f x w) as [u w1]. rewrite IH. reflexivity.
Qed.

Lemma for_each_nested {X : Type} (f : X -> Run unit) (nest : X)
    (xs ys zs : list X) :
  (forall w, f nest w = for_each ys f w) ->
  forall w, for_each (xs ++ nest :: zs) f w = for_each (xs ++ ys ++ zs) f w.
Proof.
  intros H w. rewrite !for_each_app.
  apply bind_ext; [reflexivity|]. intros _ w1.
  rewrite for_each_app. simpl. apply bind_ext; [apply H | reflexivity].
Qed.

Lemma fold_left_orb_true (bs : list bool) : fold_left orb bs true = true.
Proof. induction bs as [|b bs IH]; simpl; [reflexivity | exact IH]. Qed.

Lemma begin_sync_needed_existsb (callbacks_tuple : list ConsumerStoreCallbacks)
    (w : World) (needed : bool) :
  fold_left (fun needed callbacks => needed || begin_sync_needed callbacks w)
    callbacks_tuple needed =
  needed || existsb (fun callbacks => begin_sync_needed callbacks w) callbacks_tuple.
Proof.
  revert needed. induction callbacks_tuple as [|c cs IH]; intro needed; simpl.
  - now rewrite orb_false_r.
  - rewrite IH. now rewrite orb_assoc.
Qed.

Lemma begin_sync_needed_Impl (callbacks_tuple : list ConsumerStoreCallbacks)
    (w : World) :
  begin_sync_needed (ConsumerStoreCallbacksImpl callbacks_tuple) w =
  existsb (fun callbacks => begin_sync_needed callbacks w) callbacks_tuple.
Proof. simpl. now rewrite begin_sync_needed_existsb. Qed.

(** X9: the bundle needs a thread synchronization after [begin] exactly
    when one of its callbacks does. *)
Theorem begin_sync_needed_any (callbacks_tuple : list ConsumerStoreCallbacks)
    (w : World) :
  begin_sync_needed (ConsumerStoreCallbacksImpl callbacks_tuple) w = true <->
  Exists (fun callbacks => begin_sync_needed callbacks w = true) callbacks_tuple.
Proof.
  rewrite begin_sync_needed_Impl, existsb_exists, Exists_exists. reflexivity.
Qed.

(** X10: bundling is associative for the consumer callbacks: a bundle used
    as one element of a larger bundle behaves, in every entry point and in
    [begin_sync_needed], as if its callbacks were listed in its place.  In
    particular the empty bundle can be dropped. *)
Theorem consumer_callbacks_flatten (xs ys zs : list ConsumerStoreCallbacks) :
  let nested := ConsumerStoreCallbacksImpl (xs ++ ConsumerStoreCallbacksImpl ys :: zs) in
  let flat := ConsumerStoreCallbacksImpl (xs ++ ys ++ zs) in
  (forall w, store_begin nested w = store_begin flat w) /\
  (forall w, begin_sync_needed nested w = begin_sync_needed flat w) /\
  (forall m n w, begin_loop nested m n w = begin_loop flat m n w) /\
  (forall m n i b w, previsit nested m n i b w = previsit flat m n i b w) /\
  (forall buf sync m n last res w,
     reduce nested buf sync m n last res w = reduce flat buf sync m n last res w) /\
  (forall m n i b w, postreduce nested m n i b w = postreduce flat m n i b w) /\
  (forall m n i b w, tma_store nested m n i b w = tma_store flat m n i b w) /\
  (forall m n w, end_loop nested m n w = end_loop flat m n w) /\
  (forall w, store_end nested w = store_end flat w).
Proof.
  intros nested flat. subst nested flat.
  repeat split; intros;
    first [ rewrite !begin_sync_needed_Impl, !existsb_app; simpl existsb;
            rewrite begin_sync_needed_existsb; reflexivity
          | simpl; apply for_each_nested; intros; reflexivity ].
Qed.

(** X11: bundling is associative for the producer callbacks: [begin],
    [step] and [end] of a bundle nested in a larger bundle run the callbacks
    in the order of the flattened list. *)
Theorem producer_callbacks_flatten (xs ys zs : list ProducerLoadCallbacks) :
  let nested := ProducerLoadCallbacksImpl (xs ++ ProducerLoadCallbacksImpl ys :: zs) in
  let flat := ProducerLoadCallbacksImpl (xs ++ ys ++ zs) in
  (forall w, load_begin nested w = load_begin flat w) /\
  (forall bar m n i issue w,
     load_step nested bar m n i issue w = load_step flat bar m n i issue w) /\
  (forall w, load_end nested w = load_end flat w).
Proof.
  intros nested flat. subst nested flat. simpl.
  repeat split; intros; apply for_each_nested; intros; reflexivity.
Qed.

(** *** How the visitors compose *)

(** A tree visitor used as a child of another visitor: its [visit] takes no
    extra fragments ("child ops must be nullary (e.g. loads, trees)"). *)
Definition tree_callbacks (NodeOp : Callbacks) (ChildOps : list Callbacks)
  : Callbacks :=
  {| visit := fun frg_acc epi_v epi_m epi_n _ =>
       Sm90TreeVisitor_visit NodeOp ChildOps frg_acc epi_v epi_m epi_n |}.

Lemma tree_visit_unfold (NodeOp : Callbacks) (ChildOps : list Callbacks)
    (frg_acc : Array) (epi_v epi_m epi_n : Z) (w : World) :
  Sm90TreeVisitor_visit NodeOp ChildOps frg_acc epi_v epi_m epi_n w =
  (frg_inputs <- visit_children ChildOps frg_acc epi_v epi_m epi_n ;;
   visit NodeOp frg_acc epi_v epi_m epi_n frg_inputs) w.
Proof.
  unfold Sm90TreeVisitor_visit, tapply, make_seq, tree_callbacks_tuple.
  rewrite map_get_seq, get_middle.
  apply bind_ext; [apply transform_seq_children | reflexivity].
Qed.

Lemma get_after_repeat {X : Type} (x y d : X) (n : nat) (r : list X) :
  get n (repeat x n ++ y :: r) d = y.
Proof.
  pose proof (get_middle (repeat x n) r y d) as H.
  now rewrite repeat_length in H.
Qed.

Lemma map_const_nil {X : Type} (xs : list X) :
  map (fun _ : X => @nil nat) xs = repeat [] (length xs).
Proof. induction xs as [|x xs IH]; simpl; [reflexivity | now rewrite IH]. Qed.

Lemma visit_children_length (ChildOps : list Callbacks)
    (frg_acc : Array) (epi_v epi_m epi_n : Z) (w : World) :
  length (fst (visit_children ChildOps frg_acc epi_v epi_m epi_n w)) =
  length ChildOps.
Proof.
  revert w. induction ChildOps as [|child ChildOps IH]; intro w; simpl.
  - reflexivity.
  - unfold bind.
    destruct (visit child frg_acc epi_v epi_m epi_n [] w) as [frg w1].
    specialize (IH w1).
    destruct (visit_children ChildOps frg_acc epi_v epi_m epi_n w1) as [frgs w2].
    simpl in *. now rewrite IH.
Qed.

Lemma evaluate_nullary_nodes (ChildOps : list Callbacks)
    (frg_acc : Array) (epi_v epi_m epi_n : Z)
    (computed : list Array) (w : World) :
  (forall frg, convert_output frg = frg) ->
  evaluate_in_order (map (fun child => ([], child)) ChildOps)
    frg_acc epi_v epi_m epi_n computed w =
  (let (frg_inputs, w') := visit_children ChildOps frg_acc epi_v epi_m epi_n w in
   (computed ++ frg_inputs, w')).
Proof.
  intro Hid. revert computed w.
  induction ChildOps as [|child ChildOps IH]; intros computed w; simpl.
  - unfold ret. now rewrite app_nil_r.
  - unfold bind.
    destruct (visit child frg_acc epi_v epi_m epi_n [] w) as [frg w1].
    rewrite IH, Hid.
    destruct (visit_children ChildOps frg_acc epi_v epi_m epi_n w1) as [frgs w2].
    unfold ret. now rewrite <- app_assoc.
Qed.

(** X12: a chain tree is a special topological graph.  When the conversion
    to the compute type changes nothing (the nodes already produce that
    type), the topological visitor whose first nodes have no input and whose
    final node reads all of them visits exactly as the tree visitor with
    those nodes as children does. *)
Theorem topological_visit_as_tree (NodeOp : Callbacks) (ChildOps : list Callbacks)
    (frg_acc : Array) (epi_v epi_m epi_n : Z) (w : World) :
  (forall frg, convert_output frg = frg) ->
  Sm90TopologicalVisitor_visit
    (repeat [] (length ChildOps) ++ [seq 0 (length ChildOps)])
    (ChildOps ++ [NodeOp]) frg_acc epi_v epi_m epi_n w =
  Sm90TreeVisitor_visit NodeOp ChildOps frg_acc epi_v epi_m epi_n w.
Proof.
  intro Hid. rewrite tree_visit_unfold.
  unfold Sm90TopologicalVisitor_visit, make_seq.
  rewrite length_app. simpl length. rewrite Nat.add_1_r. simpl Nat.sub.
  rewrite Nat.sub_0_r, get_middle, get_after_repeat.
  apply eq_trans with
    ((computed <-
        evaluate_in_order (map (fun child => ([], child)) ChildOps)
          frg_acc epi_v epi_m epi_n [] ;;
      visit NodeOp frg_acc epi_v epi_m epi_n
        (select computed (seq 0 (length ChildOps)))) w).
  - apply bind_ext; [|reflexivity].
    pose proof (visit_in_order_evaluate
                  (map (fun child => (@nil nat, child)) ChildOps) []
                  (seq 0 (length ChildOps), NodeOp) []
                  frg_acc epi_v epi_m epi_n w eq_refl) as H.
    cbn [map fst snd app length] in H.
    rewrite !map_map in H. cbn [fst snd] in H.
    rewrite map_id, length_map, map_const_nil in H. exact H.
  - unfold bind. rewrite evaluate_nullary_nodes by assumption.
    pose proof (visit_children_length ChildOps frg_acc epi_v epi_m epi_n w) as Hl.
    destruct (visit_children ChildOps frg_acc epi_v epi_m epi_n w) as [frgs w1].
    simpl in *. unfold select. rewrite <- Hl.
    pose proof (map_get_seq frgs [] Array_zero) as Hsel.
    rewrite app_nil_r in Hsel. now rewrite Hsel.
Qed.

Lemma visit_children_trees (subtrees : list (Callbacks * list Callbacks))
    (frg_acc : Array) (epi_v epi_m epi_n : Z) (w : World) :
  visit_children (map (fun t => tree_callbacks (fst t) (snd t)) subtrees)
    frg_acc epi_v epi_m epi_n w =
  transform_seq
    (fun t =>
       frg_inputs <- visit_children (snd t) frg_acc epi_v epi_m epi_n ;;
       visit (fst t) frg_acc epi_v epi_m epi_n frg_inputs)
    subtrees w.
Proof.
  revert w. induction subtrees as [|[node children] subtrees IH]; intro w; simpl.
  - reflexivity.
  - apply bind_ext; [apply tree_visit_unfold|]. intros frg w1.
    apply bind_ext; [apply IH | reflexivity].
Qed.

(** X13: trees nest depth first.  The visit of a tree whose children are
    themselves trees visits, for each child tree in declared order, that
    tree's children and then its node, and finally the outer node on the
    child trees' outputs. *)
Theorem nested_trees_depth_first (NodeOp : Callbacks)
    (subtrees : list (Callbacks * list Callbacks))
    (frg_acc : Array) (epi_v epi_m epi_n : Z) (w : World) :
  Sm90TreeVisitor_visit NodeOp
    (map (fun t => tree_callbacks (fst t) (snd t)) subtrees)
    frg_acc epi_v epi_m epi_n w =
  (frg_subtrees <-
     transform_seq
       (fun t =>
          frg_inputs <- visit_children (snd t) frg_acc epi_v epi_m epi_n ;;
          visit (fst t) frg_acc epi_v epi_m epi_n frg_inputs)
       subtrees ;;
   visit NodeOp frg_acc epi_v epi_m epi_n frg_subtrees) w.
Proof.
  rewrite tree_visit_unfold.
  apply bind_ext; [apply visit_children_trees | reflexivity].
Qed.

End Visit.

Arguments visit {Array World} _ _ _ _ _ _ _.
Arguments Sm90TreeVisitor_visit {Array World} _ _ _ _ _ _ _.
Arguments Sm90SplitTreeVisitor_visit {Array World} _ _ _ _ _ _ _ _.
Arguments Sm90TopologicalVisitor_visit {Array} _ _ {World} _ _ _ _ _ _ _.

(** ** Concrete callbacks, for evaluation

    Fragments are lists of integers; the world is the log of the nodes
    visited, each with the fragment it was handed. *)

Definition Fragment : Type := list Z.
Definition VisitLog : Type := list (N * Fragment).

(** A node that logs its visit and adds [delta] to each element of the sum
    of its accumulator fragment and extra inputs, element by element. *)
Definition add_fragments (a b : Fragment) : Fragment :=
  map (fun xy => (fst xy + snd xy)%Z) (combine a b).

Definition logging_node (id : N) (delta : Z) : Callbacks Fragment VisitLog := {|
  visit := fun frg_acc _ _ _ frg_inputs log =>
    (map (Z.add delta) (fold_left add_fragments frg_inputs frg_acc),
     log ++ [(id, frg_acc)])
|}.

Definition widen (frg : Fragment) : Fragment := map (Z.mul 2) frg.

Example tree_visit_example :
  Sm90TreeVisitor_visit (logging_node 3 0) [logging_node 1 10; logging_node 2 20]
    [1; 2]%Z 0%Z 0%Z 0%Z [] =
  ([33; 36]%Z, [(1, [1; 2]%Z); (2, [1; 2]%Z); (3, [1; 2]%Z)]).
Proof. reflexivity. Qed.

Example split_visit_example :
  Sm90SplitTreeVisitor_visit (logging_node 1 10) (logging_node 4 1)
    [logging_node 2 0; logging_node 3 0] [1; 2]%Z 0%Z 0%Z 0%Z [] =
  ([12; 13]%Z,
   [(1, [1; 2]%Z); (2, [11; 12]%Z); (3, [11; 12]%Z); (4, [11; 12]%Z)]).
Proof. reflexivity. Qed.

Example topological_visit_example :
  Sm90TopologicalVisitor_visit [0; 0]%Z widen
    [[]; [0]; [0; 1]]%nat
    [logging_node 1 10; logging_node 2 0; logging_node 3 0]
    [1; 2]%Z 0%Z 0%Z 0%Z [] =
  ([69; 78]%Z, [(1, [1; 2]%Z); (2, [1; 2]%Z); (3, [1; 2]%Z)]).
Proof. reflexivity. Qed.

(** ** The grouped GEMM example: problem sizes and operand blocks *)

(** The exceptions of the standard containers; nothing in the example
    catches them. *)
Inductive Exception : Type :=
| out_of_range
| length_error.

Inductive Outcome (A : Type) : Type :=
| Returns (a : A)
| Throws (e : Exception).
Arguments Returns {A} a.
Arguments Throws {A} e.

Section GroupedGemm.

Local Open Scope Z_scope.

(** [int] and [int64_t] in two's complement; a result outside the range is
    reduced as the hardware does. *)
Definition int_of (z : Z) : Z := (z + 2 ^ 31) mod 2 ^ 32 - 2 ^ 31.
Definition int64_of (z : Z) : Z := (z + 2 ^ 63) mod 2 ^ 64 - 2 ^ 63.

(** The C library's [rand()], as a function of the generator's state. *)
Variable RandState : Type.
Variable rand : RandState -> Z * RandState.
(** [cutlass::sizeof_bits<ElementA>::value] (cutlass/numeric_types.h). *)
Variable sizeof_bits_ElementA : Z.
(** The packed strides of the operands: [cutlass::make_cute_packed_stride]
    (cutlass/util/packed_stride.hpp) at the stride types of A, B, C and D. *)
Variable StrideA StrideB StrideC StrideD : Type.
Variable make_cute_packed_stride_A : Z * Z * Z -> StrideA.
Variable make_cute_packed_stride_B : Z * Z * Z -> StrideB.
Variable make_cute_packed_stride_C : Z * Z * Z -> StrideC.
Variable make_cute_packed_stride_D : Z * Z * Z -> StrideD.

(** [ProblemShape::UnderlyingProblemShape], a [Shape<int,int,int>]. *)
Definition UnderlyingProblemShape : Type := (Z * Z * Z)%type.

Definition tma_alignment_bits : Z := 128.
Definition alignment : Z := Z.quot tma_alignment_bits sizeof_bits_ElementA.

(** Modelled from the spec: [cutlass::CommandLine]
    (cutlass/util/command_line.h) is outside the files embedded here.
    [get_cmd_line_argument(name, value)] stores the value of the flag
    [--name] when it is given and leaves [value] as it was otherwise; the
    record holds the flags the function reads. *)
Record CommandLine : Type := {
  flag_m : option Z;
  flag_n : option Z;
  flag_k : option Z
}.

Definition get_cmd_line_argument (flag : option Z) (value : Z) : Z :=
  match flag with
  | Some given => given
  | None => value
  end.

(** One extent of [randomize_problems]: the command line value, or a random
    multiple of the alignment when it is below one. *)
Definition randomize_extent (cmd_line : Z) (r : RandState) : Z * RandState :=
  if cmd_line <? 1 then
    let (x, r') := rand r in
    (int_of (alignment * int_of (Z.rem x 64 + 1)), r')
  else (cmd_line, r).

(** The loop [for (int i = groups; i > 0; i--)]. *)
Fixpoint randomize_loop (iterations : nat) (cmd_line_m cmd_line_n cmd_line_k : Z)
    (problem_sizes_host : list UnderlyingProblemShape) (r : RandState)
  : list UnderlyingProblemShape * RandState :=
  match iterations with
  | O => (problem_sizes_host, r)
  | S iterations' =>
      let (m, r1) := randomize_extent cmd_line_m r in
      let (n, r2) := randomize_extent cmd_line_n r1 in
      let (k, r3) := randomize_extent cmd_line_k r2 in
      randomize_loop iterations' cmd_line_m cmd_line_n cmd_line_k
        (problem_sizes_host ++ [(m, n, k)]) r3
  end.

(** [problem_sizes_host.reserve(groups)] converts [groups] to the unsigned
    size type; a negative count exceeds [max_size()] and [reserve] throws
    [std::length_error]. *)
Definition randomize_problems (cmd : CommandLine) (groups : Z)
    (problem_sizes_host : list UnderlyingProblemShape) (r : RandState)
  : Outcome (list UnderlyingProblemShape * RandState) :=
  let cmd_line_m := get_cmd_line_argument (flag_m cmd) (-1) in
  let cmd_line_n := get_cmd_line_argument (flag_n cmd) (-1) in
  let cmd_line_k := get_cmd_line_argument (flag_k cmd) (-1) in
  if groups <? 0 then Throws length_error
  else
    Returns
      (randomize_loop (Z.to_nat groups) cmd_line_m cmd_line_n cmd_line_k
         problem_sizes_host r).

(** The host-side vectors and the sizes of the device blocks that
    [allocate] touches. *)
Record Allocations : Type := {
  offset_A : list Z;
  offset_B : list Z;
  offset_C : list Z;
  offset_D : list Z;
  stride_A_host : list StrideA;
  stride_B_host : list StrideB;
  stride_C_host : list StrideC;
  stride_D_host : list StrideD;
  block_A : Z;
  block_B : Z;
  block_C : Z;
  block_D : Z;
  block_ref_D : Z;
  block_alpha : Z;
  block_beta : Z
}.

(** The running totals of [allocate]. *)
Record Totals : Type := {
  total_elements_A : Z;
  total_elements_B : Z;
  total_elements_C : Z;
  total_elements_D : Z
}.

(** One pass through the body of the loop of [allocate] for the problem
    [(M, N, K)]. *)
Definition allocate_step (a : Allocations) (t : Totals)
    (problem : UnderlyingProblemShape) : Allocations * Totals :=
  let '(M, N, K) := problem in
  let elements_A := int_of (M * K) in
  let elements_B := int_of (K * N) in
  let elements_C := int_of (M * N) in
  let elements_D := int_of (M * N) in
  ({| offset_A := offset_A a ++ [total_elements_A t];
      offset_B := offset_B a ++ [total_elements_B t];
      offset_C := offset_C a ++ [total_elements_C t];
      offset_D := offset_D a ++ [total_elements_D t];
      stride_A_host := stride_A_host a ++ [make_cute_packed_stride_A (M, K, 1)];
      stride_B_host := stride_B_host a ++ [make_cute_packed_stride_B (N, K, 1)];
      stride_C_host := stride_C_host a ++ [make_cute_packed_stride_C (M, N, 1)];
      stride_D_host := stride_D_host a ++ [make_cute_packed_stride_D (M, N, 1)];
      block_A := block_A a;
      block_B := block_B a;
      block_C := block_C a;
      block_D := block_D a;
      block_ref_D := block_ref_D a;
      block_alpha := block_alpha a;
      block_beta := block_beta a |},
   {| total_elements_A := int64_of (total_elements_A t + elements_A);
      total_elements_B := int64_of (total_elements_B t + elements_B);
      total_elements_C := int64_of (total_elements_C t + elements_C);
      total_elements_D := int64_of (total_elements_D t + elements_D) |}).

(** The loop [for (int32_t i = 0; i < options.groups; ++i)] of [allocate],
    from index [i] on; [problem_sizes_host.at(i)] throws
    [std::out_of_range] past the end of the vector. *)
Fixpoint allocate_loop (iterations : nat) (i : nat)
    (problem_sizes_host : list UnderlyingProblemShape)
    (a : Allocations) (t : Totals) : Outcome (Allocations * Totals) :=
  match iterations with
  | O => Returns (a, t)
  | S iterations' =>
      match nth_error problem_sizes_host i with
      | None => Throws out_of_range
      | Some problem =>
          let (a', t') := allocate_step a t problem in
          allocate_loop iterations' (S i) problem_sizes_host a' t'
      end
  end.

Definition allocate (groups : Z)
    (problem_sizes_host : list UnderlyingProblemShape) (a : Allocations)
  : Outcome Allocations :=
  match allocate_loop (Z.to_nat groups) 0 problem_sizes_host a
          {| total_elements_A := 0; total_elements_B := 0;
             total_elements_C := 0; total_elements_D := 0 |} with
  | Throws e => Throws e
  | Returns (a', t) =>
      Returns
        {| offset_A := offset_A a';
           offset_B := offset_B a';
           offset_C := offset_C a';
           offset_D := offset_D a';
           stride_A_host := stride_A_host a';
           stride_B_host := stride_B_host a';
           stride_C_host := stride_C_host a';
           stride_D_host := stride_D_host a';
           block_A := total_elements_A t;
           block_B := total_elements_B t;
           block_C := total_elements_C t;
           block_D := total_elements_D t;
           block_ref_D := total_elements_D t;
           block_alpha := groups;
           block_beta := groups |}
  end.

(** An extent as [randomize_problems] leaves it, given the command line
    value [cmd_line]: positive; the command line value when that is
    positive; otherwise between one and sixty-four alignments. *)
Definition extent_ok (cmd_line extent : Z) : Prop :=
  1 <= extent /\
  (1 <= cmd_line -> extent = cmd_line) /\
  (cmd_line < 1 -> exists q, 1 <= q <= 64 /\ extent = alignment * q).

Definition problem_ok (cmd : CommandLine) (problem : UnderlyingProblemShape)
  : Prop :=
  let '(m, n, k) := problem in
  extent_ok (get_cmd_line_argument (flag_m cmd) (-1)) m /\
  extent_ok (get_cmd_line_argument (flag_n cmd) (-1)) n /\
  extent_ok (get_cmd_line_argument (flag_k cmd) (-1)) k.

(** The results of [rand()] lie between zero and [RAND_MAX], an [int]. *)
Definition rand_in_range : Prop :=
  forall r, 0 <= fst (rand r) < 2 ^ 31.

Lemma int_of_small (z : Z) : - 2 ^ 31 <= z < 2 ^ 31 -> int_of z = z.
Proof. intro H. unfold int_of. rewrite Z.mod_small; lia. Qed.

Lemma int64_of_small (z : Z) : - 2 ^ 63 <= z < 2 ^ 63 -> int64_of z = z.
Proof. intro H. unfold int64_of. rewrite Z.mod_small; lia. Qed.

Lemma alignment_range :
  1 <= sizeof_bits_ElementA <= 128 -> 1 <= alignment <= 128.
Proof.
  intro H. unfold alignment, tma_alignment_bits. split.
  - apply Z.quot_le_lower_bound; lia.
  - apply Z.quot_le_upper_bound; lia.
Qed.

Lemma randomize_extent_ok (cmd_line : Z) (r : RandState) :
  rand_in_range -> 1 <= sizeof_bits_ElementA <= 128 ->
  extent_ok cmd_line (fst (randomize_extent cmd_line r)).
Proof.
  intros Hrand Hbits. pose proof (alignment_range Hbits) as Hal.
  unfold randomize_extent, extent_ok.
  destruct (Z.ltb_spec cmd_line 1) as [Hlt | Hge].
  - specialize (Hrand r). destruct (rand r) as [x r']. simpl in *.
    assert (Hrem : 0 <= Z.rem x 64 < 64).
    { rewrite Z.rem_mod_nonneg by lia. apply Z.mod_pos_bound. lia. }
    rewrite (int_of_small (Z.rem x 64 + 1)) by lia.
    rewrite int_of_small by nia.
    split; [nia|]. split; [intro; lia|].
    intros _. exists (Z.rem x 64 + 1). split; [lia | reflexivity].
  - simpl. split; [lia|]. split; [reflexivity|]. intro. exfalso. lia.
Qed.

Lemma randomize_loop_appends (iterations : nat) (cm cn ck : Z)
    (problem_sizes_host : list UnderlyingProblemShape) (r : RandState) :
  exists added,
    fst (randomize_loop iterations cm cn ck problem_sizes_host r) =
      problem_sizes_host ++ added /\
    length added = iterations /\
    (rand_in_range -> 1 <= sizeof_bits_ElementA <= 128 ->
     Forall (fun problem =>
               let '(m, n, k) := problem in
               extent_ok cm m /\ extent_ok cn n /\ extent_ok ck k) added).
Proof.
  revert problem_sizes_host r.
  induction iterations as [|iterations IH]; intros problem_sizes_host r; simpl.
  - exists []. rewrite app_nil_r. repeat split. intros; constructor.
  - pose proof (randomize_extent_ok cm r) as Hm.
    destruct (randomize_extent cm r) as [m r1].
    pose proof (randomize_extent_ok cn r1) as Hn.
    destruct (randomize_extent cn r1) as [n r2].
    pose proof (randomize_extent_ok ck r2) as Hk.
    destruct (randomize_extent ck r2) as [k r3].
    destruct (IH (problem_sizes_host ++ [(m, n, k)]) r3)
      as (added & Heq & Hlen & Hok).
    exists ((m, n, k) :: added). rewrite Heq, <- app_assoc. simpl.
    repeat split; [now rewrite Hlen|].
    intros Hrand Hbits. constructor; [|now apply Hok].
    simpl in *.
    split; [now apply Hm | split; [now apply Hn | now apply Hk]].
Qed.

(** *** The offsets of [allocate] *)

(** The element counts of the operands of one problem. *)
Definition elements_A (problem : UnderlyingProblemShape) : Z :=
  let '(M, N, K) := problem in M * K.
Definition elements_B (problem : UnderlyingProblemShape) : Z :=
  let '(M, N, K) := problem in K * N.
Definition elements_C (problem : UnderlyingProblemShape) : Z :=
  let '(M, N, K) := problem in M * N.

(** Extents that are not negative and whose products are [int]s. *)
Definition products_fit (problem : UnderlyingProblemShape) : Prop :=
  let '(M, N, K) := problem in
  0 <= M /\ 0 <= N /\ 0 <= K /\
  M * K < 2 ^ 31 /\ K * N < 2 ^ 31 /\ M * N < 2 ^ 31.

Fixpoint prefix_sums (start : Z) (sizes : list Z) : list Z :=
  match sizes with
  | [] => []
  | size :: sizes' => start :: prefix_sums (start + size) sizes'
  end.

(** The groups' regions of one block: one offset per group, each region
    inside the block, and each region ending before the next begins. *)
Definition regions_packed (offsets sizes : list Z) (block : Z) : Prop :=
  length offsets = length sizes /\
  Forall (fun r => 0 <= fst r /\ fst r + snd r <= block) (combine offsets sizes) /\
  ForallOrdPairs (fun r1 r2 => fst r1 + snd r1 <= fst r2) (combine offsets sizes).

Lemma prefix_sums_packed (sizes : list Z) (start : Z) :
  0 <= start -> Forall (fun size => 0 <= size) sizes ->
  length (prefix_sums start sizes) = length sizes /\
  Forall (fun r => start <= fst r /\ fst r + snd r <= start + fold_right Z.add 0 sizes)
    (combine (prefix_sums start sizes) sizes) /\
  ForallOrdPairs (fun r1 r2 => fst r1 + snd r1 <= fst r2)
    (combine (prefix_sums start sizes) sizes).
Proof.
  intros Hs H. revert start Hs.
  induction H as [|size sizes Hsize H IH]; intros start Hs; simpl.
  - repeat split; constructor.
  - destruct (IH (start + size) ltac:(lia)) as (Hlen & Hin & Hdis).
    assert (Hsum : 0 <= fold_right Z.add 0 sizes).
    { clear - H. induction H; simpl; lia. }
    split; [now rewrite Hlen|]. split.
    + constructor; [simpl; lia|].
      eapply Forall_impl; [|exact Hin]. intros [o n]. simpl. lia.
    + constructor; [|exact Hdis].
      eapply Forall_impl; [|exact Hin]. intros [o n]. simpl. lia.
Qed.

Lemma skipn_nth_error {X : Type} (l : list X) (i : nat) (x : X) :
  nth_error l i = Some x -> skipn i l = x :: skipn (S i) l.
Proof.
  revert i. induction l as [|y l IH]; intros [|i] H; simpl in *;
    try discriminate.
  - now injection H as ->.
  - now apply IH.
Qed.

(** One component of the loop: a vector of offsets, its running total and
    the element count it adds per problem. *)
Lemma allocate_loop_component
    (off : Allocations -> list Z) (tot : Totals -> Z)
    (elements : UnderlyingProblemShape -> Z) :
  (forall a t problem,
     off (fst (allocate_step a t problem)) = off a ++ [tot t] /\
     tot (snd (allocate_step a t problem)) =
       int64_of (tot t + int_of (elements problem))) ->
  (forall problem, products_fit problem ->
     0 <= elements problem < 2 ^ 31) ->
  forall (iterations i : nat) (problem_sizes_host : list UnderlyingProblemShape)
         (a : Allocations) (t : Totals),
    (i + iterations <= length problem_sizes_host)%nat ->
    Z.of_nat (i + iterations) <= 2 ^ 31 ->
    Forall products_fit problem_sizes_host ->
    0 <= tot t <= Z.of_nat i * 2 ^ 31 ->
    exists a' t',
      allocate_loop iterations i problem_sizes_host a t = Returns (a', t') /\
      off a' =
        off a ++ prefix_sums (tot t)
                   (map elements (firstn iterations (skipn i problem_sizes_host))) /\
      tot t' =
        tot t + fold_right Z.add 0
                  (map elements (firstn iterations (skipn i problem_sizes_host))).
Proof.
  intros Hstep Hel iterations.
  induction iterations as [|iterations IH]; intros i l a t Hlen Hint Hfit Htot.
  - exists a, t. simpl. rewrite app_nil_r. repeat split. lia.
  - simpl allocate_loop.
    destruct (nth_error l i) as [problem|] eqn:Enth.
    2:{ apply nth_error_None in Enth. lia. }
    pose proof (Hstep a t problem) as [Hoff Htot'].
    assert (Hp : products_fit problem).
    { rewrite Forall_forall in Hfit. apply Hfit. eapply nth_error_In. exact Enth. }
    specialize (Hel problem Hp).
    destruct (allocate_step a t problem) as [a1 t1]. simpl in Hoff, Htot'.
    rewrite int_of_small in Htot' by lia.
    rewrite int64_of_small in Htot' by nia.
    destruct (IH (S i) l a1 t1) as (a' & t' & Hrun & Hoff' & Htot'').
    + lia.
    + replace (S i + iterations)%nat with (i + S iterations)%nat by lia.
      exact Hint.
    + exact Hfit.
    + rewrite Htot'. nia.
    + exists a', t'. split; [exact Hrun|].
      rewrite (skipn_nth_error l i problem Enth). simpl.
      rewrite Hoff', Htot'', Hoff, Htot', <- app_assoc. simpl.
      split; [reflexivity | lia].
Qed.

Lemma allocate_loop_no_throw (iterations i : nat)
    (problem_sizes_host : list UnderlyingProblemShape)
    (a : Allocations) (t : Totals) :
  (i + iterations <= length problem_sizes_host)%nat ->
  exists result, allocate_loop iterations i problem_sizes_host a t = Returns result.
Proof.
  revert i a t. induction iterations as [|iterations IH]; intros i a t Hlen; simpl.
  - now exists (a, t).
  - destruct (nth_error problem_sizes_host i) as [problem|] eqn:Enth.
    2:{ apply nth_error_None in Enth. lia. }
    destruct (allocate_step a t problem) as [a1 t1]. apply IH. lia.
Qed.

Lemma allocate_loop_throws (iterations i : nat)
    (problem_sizes_host : list UnderlyingProblemShape)
    (a : Allocations) (t : Totals) :
  (i <= length problem_sizes_host < i + iterations)%nat ->
  allocate_loop iterations i problem_sizes_host a t = Throws out_of_range.
Proof.
  revert i a t. induction iterations as [|iterations IH]; intros i a t Hlen; simpl.
  - lia.
  - destruct (nth_error problem_sizes_host i) as [problem|] eqn:Enth;
      [|reflexivity].
    assert (i < length problem_sizes_host)%nat
      by (apply nth_error_Some; congruence).
    destruct (allocate_step a t problem) as [a1 t1]. apply IH. lia.
Qed.

(** X14: [randomize_problems] appends exactly [groups] problems to
    [problem_sizes_host] and keeps what the vector held; with a negative
    [groups] the [reserve] call throws [std::length_error]. *)
Theorem randomize_problems_count (cmd : CommandLine) (groups : Z)
    (problem_sizes_host : list UnderlyingProblemShape) (r : RandState) :
  (groups < 0 ->
   randomize_problems cmd groups problem_sizes_host r = Throws length_error) /\
  (0 <= groups ->
   exists added r',
     randomize_problems cmd groups problem_sizes_host r =
       Returns (problem_sizes_host ++ added, r') /\
     Z.of_nat (length added) = groups).
Proof.
  unfold randomize_problems. split; intro H.
  - destruct (Z.ltb_spec groups 0); [reflexivity | lia].
  - destruct (Z.ltb_spec groups 0); [lia|].
    destruct (randomize_loop_appends (Z.to_nat groups)
                (get_cmd_line_argument (flag_m cmd) (-1))
                (get_cmd_line_argument (flag_n cmd) (-1))
                (get_cmd_line_argument (flag_k cmd) (-1))
                problem_sizes_host r) as (added & Heq & Hlen & _).
    destruct (randomize_loop _ _ _ _ _ _) as [ps r']. simpl in Heq. subst ps.
    exists added, r'. split; [reflexivity | lia].
Qed.

(** X15: every problem [randomize_problems] appends has extents of at
    least one: an extent given on the command line as a positive number is
    used as it is, any other is a multiple of the TMA alignment, between
    one and sixty-four alignments. *)
Theorem randomize_problems_extents (cmd : CommandLine) (groups : Z)
    (problem_sizes_host : list UnderlyingProblemShape) (r : RandState) :
  rand_in_range -> 1 <= sizeof_bits_ElementA <= 128 -> 0 <= groups ->
  exists added r',
    randomize_problems cmd groups problem_sizes_host r =
      Returns (problem_sizes_host ++ added, r') /\
    Forall (problem_ok cmd) added.
Proof.
  intros Hrand Hbits Hg. unfold randomize_problems.
  destruct (Z.ltb_spec groups 0); [lia|].
  destruct (randomize_loop_appends (Z.to_nat groups)
              (get_cmd_line_argument (flag_m cmd) (-1))
              (get_cmd_line_argument (flag_n cmd) (-1))
              (get_cmd_line_argument (flag_k cmd) (-1))
              problem_sizes_host r) as (added & Heq & _ & Hok).
  destruct (randomize_loop _ _ _ _ _ _) as [ps r']. simpl in Heq. subst ps.
  exists added, r'. split; [reflexivity|].
  eapply Forall_impl; [|apply Hok; assumption].
  intros [[m n] k] H'. exact H'.
Qed.

(** The blocks of A, B, C and D after [allocate], for the first [groups]
    problems of the vector: in each block the groups' regions are packed,
    and the reference block has the size of the block of D. *)
Definition blocks_packed (groups : Z)
    (problem_sizes_host : list UnderlyingProblemShape) (a : Allocations)
  : Prop :=
  let scheduled := firstn (Z.to_nat groups) problem_sizes_host in
  regions_packed (offset_A a) (map elements_A scheduled) (block_A a) /\
  regions_packed (offset_B a) (map elements_B scheduled) (block_B a) /\
  regions_packed (offset_C a) (map elements_C scheduled) (block_C a) /\
  regions_packed (offset_D a) (map elements_C scheduled) (block_D a) /\
  block_ref_D a = block_D a.

(** The offset vectors are empty, as at program start. *)
Definition fresh (a : Allocations) : Prop :=
  offset_A a = [] /\ offset_B a = [] /\ offset_C a = [] /\ offset_D a = [].

Lemma regions_packed_prefix_sums (sizes : list Z) :
  Forall (fun size => 0 <= size) sizes ->
  regions_packed (prefix_sums 0 sizes) sizes (0 + fold_right Z.add 0 sizes).
Proof.
  intro H. destruct (prefix_sums_packed sizes 0 ltac:(lia) H) as (Hl & Hin & Hd).
  repeat split; assumption.
Qed.

Lemma elements_nonneg (elements : UnderlyingProblemShape -> Z)
    (problems : list UnderlyingProblemShape) :
  (forall problem, products_fit problem -> 0 <= elements problem < 2 ^ 31) ->
  Forall products_fit problems ->
  Forall (fun size => 0 <= size) (map elements problems).
Proof.
  intros Hel H. apply Forall_map. eapply Forall_impl; [|exact H].
  intros problem Hp. now apply Hel.
Qed.

Lemma elements_A_fit (problem : UnderlyingProblemShape) :
  products_fit problem -> 0 <= elements_A problem < 2 ^ 31.
Proof. destruct problem as [[M N] K]. simpl. nia. Qed.

Lemma elements_B_fit (problem : UnderlyingProblemShape) :
  products_fit problem -> 0 <= elements_B problem < 2 ^ 31.
Proof. destruct problem as [[M N] K]. simpl. nia. Qed.

Lemma elements_C_fit (problem : UnderlyingProblemShape) :
  products_fit problem -> 0 <= elements_C problem < 2 ^ 31.
Proof. destruct problem as [[M N] K]. simpl. nia. Qed.

Lemma allocate_packed (groups : Z)
    (problem_sizes_host : list UnderlyingProblemShape) (a : Allocations) :
  fresh a ->
  0 <= groups < 2 ^ 31 ->
  groups <= Z.of_nat (length problem_sizes_host) ->
  Forall products_fit problem_sizes_host ->
  exists a',
    allocate groups problem_sizes_host a = Returns a' /\
    blocks_packed groups problem_sizes_host a'.
Proof.
  intros (HA & HB & HC & HD) Hg Hlen Hfit.
  set (t0 := {| total_elements_A := 0; total_elements_B := 0;
                total_elements_C := 0; total_elements_D := 0 |}).
  assert (Hbound : (0 + Z.to_nat groups <= length problem_sizes_host)%nat) by lia.
  assert (Hint : Z.of_nat (0 + Z.to_nat groups) <= 2 ^ 31) by lia.
  assert (Hscheduled : Forall products_fit
            (firstn (Z.to_nat groups) problem_sizes_host)).
  { rewrite Forall_forall in *. intros x Hx. apply Hfit.
    eapply (In_nth_error) in Hx. destruct Hx as [n Hn].
    rewrite <- (firstn_skipn (Z.to_nat groups) problem_sizes_host).
    apply in_or_app. left. eapply nth_error_In. exact Hn. }
  destruct (allocate_loop_component offset_A total_elements_A elements_A
              ltac:(intros ? ? [[? ?] ?]; split; reflexivity) elements_A_fit
              (Z.to_nat groups) 0%nat problem_sizes_host a t0
              Hbound Hint Hfit ltac:(simpl; lia))
    as (a' & t' & Hrun & HoA & HtA).
  destruct (allocate_loop_component offset_B total_elements_B elements_B
              ltac:(intros ? ? [[? ?] ?]; split; reflexivity) elements_B_fit
              (Z.to_nat groups) 0%nat problem_sizes_host a t0
              Hbound Hint Hfit ltac:(simpl; lia))
    as (aB & tB & HrunB & HoB & HtB).
  destruct (allocate_loop_component offset_C total_elements_C elements_C
              ltac:(intros ? ? [[? ?] ?]; split; reflexivity) elements_C_fit
              (Z.to_nat groups) 0%nat problem_sizes_host a t0
              Hbound Hint Hfit ltac:(simpl; lia))
    as (aC & tC & HrunC & HoC & HtC).
  destruct (allocate_loop_component offset_D total_elements_D elements_C
              ltac:(intros ? ? [[? ?] ?]; split; reflexivity) elements_C_fit
              (Z.to_nat groups) 0%nat problem_sizes_host a t0
              Hbound Hint Hfit ltac:(simpl; lia))
    as (aD & tD & HrunD & HoD & HtD).
  rewrite Hrun in HrunB, HrunC, HrunD.
  inversion HrunB; subst aB tB. inversion HrunC; subst aC tC.
  inversion HrunD; subst aD tD. clear HrunB HrunC HrunD.
  unfold allocate. fold t0. rewrite Hrun.
  eexists. split; [reflexivity|].
  unfold blocks_packed. cbn [offset_A offset_B offset_C offset_D
    block_A block_B block_C block_D block_ref_D].
  rewrite HoA, HoB, HoC, HoD, HtA, HtB, HtC, HtD, HA, HB, HC, HD.
  cbn [skipn app total_elements_A total_elements_B total_elements_C
       total_elements_D t0].
  repeat split;
    try (apply regions_packed_prefix_sums; eapply elements_nonneg;
         [first [exact elements_A_fit | exact elements_B_fit | exact elements_C_fit]
         | exact Hscheduled]).
Qed.

(** X16: started with empty offset vectors on at least [groups] problems
    whose extents are not negative and whose element counts are [int]s,
    [allocate] returns; for each of A, B, C and D it records one offset per
    group, every group's region lies inside the block it sizes, and the
    regions of different groups do not overlap. *)
Theorem allocate_blocks_packed (groups : Z)
    (problem_sizes_host : list UnderlyingProblemShape) (a : Allocations) :
  fresh a ->
  0 <= groups < 2 ^ 31 ->
  groups <= Z.of_nat (length problem_sizes_host) ->
  Forall products_fit problem_sizes_host ->
  exists a',
    allocate groups problem_sizes_host a = Returns a' /\
    blocks_packed groups problem_sizes_host a'.
Proof. apply allocate_packed. Qed.

(** X17: with more [groups] than problems in the vector, [allocate] throws
    [std::out_of_range] from [problem_sizes_host.at(i)]; this is what
    happens after a benchmark file that could not be read, which leaves the
    vector empty and [groups] as it was. *)
Theorem allocate_throws (groups : Z)
    (problem_sizes_host : list UnderlyingProblemShape) (a : Allocations) :
  Z.of_nat (length problem_sizes_host) < groups ->
  allocate groups problem_sizes_host a = Throws out_of_range.
Proof.
  intro H. unfold allocate. rewrite allocate_loop_throws; [reflexivity | lia].
Qed.

(** A flag is absent or at most 32768. *)
Definition flag_small (flag : option Z) : Prop :=
  match flag with
  | Some given => given <= 32768
  | None => True
  end.

Lemma extent_ok_bound (flag : option Z) (extent : Z) :
  1 <= sizeof_bits_ElementA <= 128 -> flag_small flag ->
  extent_ok (get_cmd_line_argument flag (-1)) extent ->
  1 <= extent <= 32768.
Proof.
  intros Hbits Hsmall (H1 & Hgiven & Hrandom).
  pose proof (alignment_range Hbits) as Hal.
  split; [exact H1|].
  destruct (Z.lt_ge_cases (get_cmd_line_argument flag (-1)) 1) as [Hlt | Hge].
  - destruct (Hrandom Hlt) as (q & Hq & ->). nia.
  - rewrite (Hgiven Hge). destruct flag; simpl in *; lia.
Qed.

(** X18: the problems [randomize_problems] draws can be allocated: when the
    extents given on the command line are at most 32768, [allocate] on the
    drawn problems returns and the groups' regions are packed in each
    block. *)
Theorem allocate_after_randomize (cmd : CommandLine) (groups : Z)
    (r r' : RandState) (problems : list UnderlyingProblemShape)
    (a : Allocations) :
  rand_in_range -> 1 <= sizeof_bits_ElementA <= 128 ->
  flag_small (flag_m cmd) -> flag_small (flag_n cmd) -> flag_small (flag_k cmd) ->
  0 <= groups < 2 ^ 31 -> fresh a ->
  randomize_problems cmd groups [] r = Returns (problems, r') ->
  exists a',
    allocate groups problems a = Returns a' /\
    blocks_packed groups problems a'.
Proof.
  intros Hrand Hbits Hm Hn Hk Hg Hfresh Hdraw.
  unfold randomize_problems in Hdraw.
  destruct (Z.ltb_spec groups 0); [lia|].
  destruct (randomize_loop_appends (Z.to_nat groups)
              (get_cmd_line_argument (flag_m cmd) (-1))
              (get_cmd_line_argument (flag_n cmd) (-1))
              (get_cmd_line_argument (flag_k cmd) (-1))
              [] r) as (added & Heq & Hlen & Hok).
  injection Hdraw as Hdraw. rewrite Hdraw in Heq. simpl in Heq. subst added.
  apply allocate_packed; try assumption; [lia|].
  eapply Forall_impl; [|apply Hok; assumption].
  intros [[m n] k] (Hem & Hen & Hek).
  apply (extent_ok_bound _ _ Hbits Hm) in Hem.
  apply (extent_ok_bound _ _ Hbits Hn) in Hen.
  apply (extent_ok_bound _ _ Hbits Hk) in Hek.
  unfold products_fit. nia.
Qed.

End GroupedGemm.

(** ** The alignment assertion of [as_position_independent_swizzle_tensor] *)

Section SwizzleAssert.

Local Open Scope Z_scope.

Definition uint32_of (z : Z) : Z := z mod 2 ^ 32.

(** [((uint32_t(1) << SwizzleFn::num_base) - 1) | SwizzleFn::swizzle_code];
    [num_base] and [swizzle_code] are constants of the swizzle functor
    (cute/swizzle.hpp). *)
Definition swizzle_alignment_mask (num_base swizzle_code : Z) : Z :=
  Z.lor (uint32_of (uint32_of (Z.shiftl 1 num_base) - 1)) swizzle_code.

(** The condition of [assert((address & mask) == 0)]. *)
Definition swizzle_alignment_assert (address num_base swizzle_code : Z) : bool :=
  Z.land address (swizzle_alignment_mask num_base swizzle_code) =? 0.

(** X19: the debug assertion on the shared memory address holds exactly
    when the address is a multiple of [2^num_base] and has none of the bits
    of the swizzle code set. *)
Theorem swizzle_alignment_assert_spec (address num_base swizzle_code : Z) :
  0 <= num_base < 32 ->
  swizzle_alignment_assert address num_base swizzle_code = true <->
  address mod 2 ^ num_base = 0 /\ Z.land address swizzle_code = 0.
Proof.
  intro Hb. unfold swizzle_alignment_assert, swizzle_alignment_mask, uint32_of.
  assert (Hpow : 0 < 2 ^ num_base < 2 ^ 32).
  { split; [apply Z.pow_pos_nonneg; lia|].
    apply Z.pow_lt_mono_r; lia. }
  rewrite Z.shiftl_1_l, (Z.mod_small (2 ^ num_base)) by lia.
  rewrite Z.mod_small by lia.
  replace (2 ^ num_base - 1) with (Z.ones num_base)
    by (rewrite Z.ones_equiv; lia).
  rewrite Z.eqb_eq, Z.land_lor_distr_r, Z.lor_eq_0_iff.
  rewrite Z.land_ones by lia. reflexivity.
Qed.

End SwizzleAssert.

(** ** Instances of the host interface properties

    The nodes are the scratch nodes above, with an alignment of sixteen
    bytes and a workspace at address 4096. *)

Lemma get_workspace_size_rounded_sum_witness :
  let ops := [scratch_node; scratch_node; scratch_node] in
  let args : Arguments (Sm90VisitorImplBase 16 ops) := (1, (20, (3, tt))) in
  valid_alignment 16 /\
  workspace_extent 16 (child_sizes ops shape_37_64_96 args) < size_modulus /\
  get_workspace_size (Sm90VisitorImplBase 16 ops) shape_37_64_96 args =
    fold_right N.add 0 (map (round_up 16) (child_sizes ops shape_37_64_96 args)) /\
  (exists q,
     get_workspace_size (Sm90VisitorImplBase 16 ops) shape_37_64_96 args = q * 16) /\
  fold_right N.add 0 (child_sizes ops shape_37_64_96 args) <=
    get_workspace_size (Sm90VisitorImplBase 16 ops) shape_37_64_96 args.
Proof.
  intros ops args.
  assert (Hv : valid_alignment 16) by (exists 4; split; [lia | reflexivity]).
  assert (Hlt : workspace_extent 16 (child_sizes ops shape_37_64_96 args)
                < size_modulus) by (vm_compute; reflexivity).
  split; [exact Hv|]. split; [exact Hlt|].
  exact (get_workspace_size_rounded_sum MNKL unit unit (list ptr) 16 ops
           shape_37_64_96 args Hv Hlt).
Defined.

Lemma initialize_regions_within_disjoint_aligned_witness :
  let ops := [scratch_node; scratch_node; scratch_node] in
  let args : Arguments (Sm90VisitorImplBase 16 ops) := (1, (20, (3, tt))) in
  let workspaces := initialize_workspaces 16 ops shape_37_64_96 args 4096 in
  let regions := combine workspaces (child_sizes ops shape_37_64_96 args) in
  let len := get_workspace_size (Sm90VisitorImplBase 16 ops) shape_37_64_96 args in
  valid_alignment 16 /\
  buffer_fits 16 4096 (child_sizes ops shape_37_64_96 args) /\
  Forall (region_within 4096 len) regions /\
  ForallOrdPairs regions_disjoint regions /\
  Forall (fun p => exists q, p = 4096 + q * 16) workspaces.
Proof.
  intros ops args.
  assert (Hv : valid_alignment 16) by (exists 4; split; [lia | reflexivity]).
  assert (Hfit : buffer_fits 16 4096 (child_sizes ops shape_37_64_96 args))
    by (split; [left; discriminate | vm_compute; reflexivity]).
  intros workspaces regions len.
  split; [exact Hv|]. split; [exact Hfit|].
  exact (initialize_regions_within_disjoint_aligned MNKL unit unit (list ptr) 16
           ops shape_37_64_96 args 4096 Hv Hfit).
Defined.

Lemma aligned_sizes_layouts_agree_witness :
  let ops := [scratch_node; scratch_node; scratch_node] in
  let args : Arguments (Sm90VisitorImplBase 16 ops) := (16, (32, (0, tt))) in
  valid_alignment 16 /\
  buffer_fits 16 4096 (child_sizes ops shape_37_64_96 args) /\
  Forall (fun size => exists q, size = q * 16) (child_sizes ops shape_37_64_96 args) /\
  child_workspaces 16 ops shape_37_64_96 args 4096 =
    initialize_workspaces 16 ops shape_37_64_96 args 4096.
Proof.
  intros ops args.
  assert (Hv : valid_alignment 16) by (exists 4; split; [lia | reflexivity]).
  assert (Hfit : buffer_fits 16 4096 (child_sizes ops shape_37_64_96 args))
    by (split; [left; discriminate | vm_compute; reflexivity]).
  assert (Hmul : Forall (fun size => exists q, size = q * 16)
                   (child_sizes ops shape_37_64_96 args)).
  { repeat constructor; [exists 1 | exists 2 | exists 0]; reflexivity. }
  split; [exact Hv|]. split; [exact Hfit|]. split; [exact Hmul|].
  exact (aligned_sizes_layouts_agree MNKL unit unit (list ptr) 16 ops
           shape_37_64_96 args 4096 Hv Hfit Hmul).
Defined.

Lemma generic_form_same_pointers_witness :
  let ops := [scratch_node; scratch_node; scratch_node; scratch_node; scratch_node] in
  let args : Arguments (Sm90VisitorImplBase 16 ops) := (1, (20, (0, (16, (3, tt))))) in
  (length ops = 0 \/ 5 <= length ops)%nat /\
  child_workspaces 16 ops shape_37_64_96 args 4096 =
    initialize_workspaces 16 ops shape_37_64_96 args 4096.
Proof.
  intros ops args.
  assert (Harity : (length ops = 0 \/ 5 <= length ops)%nat) by (right; simpl; lia).
  split; [exact Harity|].
  exact (generic_form_same_pointers MNKL unit unit (list ptr) 16 ops
           shape_37_64_96 args 4096 Harity).
Defined.

Lemma generic_form_null_workspace_witness :
  let ops := [scratch_node; scratch_node; scratch_node; scratch_node; scratch_node] in
  let args : Arguments (Sm90VisitorImplBase 16 ops) := (1, (20, (0, (16, (3, tt))))) in
  (length ops = 0 \/ 5 <= length ops)%nat /\
  child_workspaces 16 ops shape_37_64_96 args nullptr = repeat nullptr (length ops) /\
  initialize_workspaces 16 ops shape_37_64_96 args nullptr = repeat nullptr (length ops).
Proof.
  intros ops args.
  assert (Harity : (length ops = 0 \/ 5 <= length ops)%nat) by (right; simpl; lia).
  split; [exact Harity|].
  exact (generic_form_null_workspace MNKL unit unit (list ptr) 16 ops
           shape_37_64_96 args Harity).
Defined.

Lemma specialized_null_workspace_witness :
  let ops := [scratch_node; scratch_node; scratch_node] in
  let args : Arguments (Sm90VisitorImplBase 16 ops) := (1, (20, (3, tt))) in
  valid_alignment 16 /\
  (1 <= length ops <= 4)%nat /\
  workspace_extent 16 (child_sizes ops shape_37_64_96 args) < size_modulus /\
  child_workspaces 16 ops shape_37_64_96 args nullptr =
    prefix_offsets 0 (child_sizes ops shape_37_64_96 args) /\
  initialize_workspaces 16 ops shape_37_64_96 args nullptr =
    prefix_offsets 0 (map (round_up 16) (child_sizes ops shape_37_64_96 args)).
Proof.
  intros ops args.
  assert (Hv : valid_alignment 16) by (exists 4; split; [lia | reflexivity]).
  assert (Harity : (1 <= length ops <= 4)%nat) by (simpl; lia).
  assert (Hlt : workspace_extent 16 (child_sizes ops shape_37_64_96 args)
                < size_modulus) by (vm_compute; reflexivity).
  split; [exact Hv|]. split; [exact Harity|]. split; [exact Hlt|].
  exact (specialized_null_workspace MNKL unit unit (list ptr) 16 ops
           shape_37_64_96 args Hv Harity Hlt).
Defined.

Lemma initialize_workspace_failure_witness :
  let ops := [scratch_node; failing_node; scratch_node] in
  let args : Arguments (Sm90VisitorImplBase 16 ops) := (16, (16, (16, tt))) in
  initialize_workspace (Sm90VisitorImplBase 16 ops) shape_37_64_96 args 4096 tt None []
    = (kError 7, [4096; 4112]) /\
  kError 7 <> kSuccess /\
  exists before call after,
    children_initialize ops shape_37_64_96 tt None args
      (initialize_workspaces 16 ops shape_37_64_96 args 4096)
      = before ++ call :: after /\
    all_succeed (list ptr) before [] /\
    call (run_all (list ptr) before []) = (kError 7, [4096; 4112]).
Proof.
  intros ops args.
  assert (Hrun : initialize_workspace (Sm90VisitorImplBase 16 ops) shape_37_64_96
                   args 4096 tt None [] = (kError 7, [4096; 4112]))
    by (vm_compute; reflexivity).
  assert (Hfail : kError 7 <> kSuccess) by discriminate.
  split; [exact Hrun|]. split; [exact Hfail|].
  exact (initialize_workspace_failure MNKL unit unit (list ptr) 16 ops
           shape_37_64_96 args 4096 tt None [] [4096; 4112] (kError 7) Hrun Hfail).
Defined.

Arguments nested_args {_ _ _ _} _ _ _ _ _ _ _.
Arguments flat_args {_ _ _ _} _ _ _ _ _ _.

(** A chain of two scratch nodes nested between two scratch nodes. *)
Lemma nested_get_workspace_size_witness :
  let xs := [scratch_node] in
  let ys := [scratch_node; scratch_node] in
  let zs := [scratch_node] in
  let args_xs : Arguments (Sm90VisitorImplBase 16 xs) := (1, tt) in
  let args_ys : Arguments (Sm90VisitorImplBase 16 ys) := (20, (3, tt)) in
  let args_zs : Arguments (Sm90VisitorImplBase 16 zs) := (5, tt) in
  valid_alignment 16 /\
  workspace_extent 16
    (child_sizes (xs ++ ys ++ zs) shape_37_64_96
       (flat_args xs ys zs args_xs args_ys args_zs)) < size_modulus /\
  get_workspace_size (Sm90VisitorImplBase 16 (xs ++ Sm90VisitorImplBase 16 ys :: zs))
    shape_37_64_96 (nested_args 16 xs ys zs args_xs args_ys args_zs) =
  get_workspace_size (Sm90VisitorImplBase 16 (xs ++ ys ++ zs))
    shape_37_64_96 (flat_args xs ys zs args_xs args_ys args_zs).
Proof.
  intros xs ys zs args_xs args_ys args_zs.
  assert (Hv : valid_alignment 16) by (exists 4; split; [lia | reflexivity]).
  assert (Hlt : workspace_extent 16
                  (child_sizes (xs ++ ys ++ zs) shape_37_64_96
                     (flat_args xs ys zs args_xs args_ys args_zs)) < size_modulus)
    by (vm_compute; reflexivity).
  split; [exact Hv|]. split; [exact Hlt|].
  exact (nested_get_workspace_size MNKL unit unit (list ptr) 16 xs ys zs
           shape_37_64_96 args_xs args_ys args_zs Hv Hlt).
Defined.

Lemma nested_initialize_workspace_witness :
  let xs := [scratch_node] in
  let ys := [scratch_node; failing_node] in
  let zs := [scratch_node] in
  let args_xs : Arguments (Sm90VisitorImplBase 16 xs) := (1, tt) in
  let args_ys : Arguments (Sm90VisitorImplBase 16 ys) := (20, (3, tt)) in
  let args_zs : Arguments (Sm90VisitorImplBase 16 zs) := (5, tt) in
  valid_alignment 16 /\
  buffer_fits 16 4096
    (child_sizes (xs ++ ys ++ zs) shape_37_64_96
       (flat_args xs ys zs args_xs args_ys args_zs)) /\
  initialize_workspace
    (Sm90VisitorImplBase 16 (xs ++ Sm90VisitorImplBase 16 ys :: zs))
    shape_37_64_96 (nested_args 16 xs ys zs args_xs args_ys args_zs)
    4096 tt None [] =
  initialize_workspace (Sm90VisitorImplBase 16 (xs ++ ys ++ zs))
    shape_37_64_96 (flat_args xs ys zs args_xs args_ys args_zs)
    4096 tt None [].
Proof.
  intros xs ys zs args_xs args_ys args_zs.
  assert (Hv : valid_alignment 16) by (exists 4; split; [lia | reflexivity]).
  assert (Hfit : buffer_fits 16 4096
                   (child_sizes (xs ++ ys ++ zs) shape_37_64_96
                      (flat_args xs ys zs args_xs args_ys args_zs)))
    by (split; [left; discriminate | vm_compute; reflexivity]).
  split; [exact Hv|]. split; [exact Hfit|].
  exact (nested_initialize_workspace MNKL unit unit (list ptr) 16 xs ys zs
           shape_37_64_96 args_xs args_ys args_zs 4096 tt None [] Hv Hfit).
Defined.

(** The nest and the flat composite on the scratch nodes: the same size and
    the same initialization, the inner chain stopping both. *)
Example nested_layout_example :
  let xs := [scratch_node] in
  let ys := [scratch_node; failing_node] in
  let zs := [scratch_node] in
  let args_xs : Arguments (Sm90VisitorImplBase 16 xs) := (1, tt) in
  let args_ys : Arguments (Sm90VisitorImplBase 16 ys) := (20, (3, tt)) in
  let args_zs : Arguments (Sm90VisitorImplBase 16 zs) := (5, tt) in
  get_workspace_size (Sm90VisitorImplBase 16 (xs ++ Sm90VisitorImplBase 16 ys :: zs))
    shape_37_64_96 (nested_args 16 xs ys zs args_xs args_ys args_zs) = 80 /\
  initialize_workspace
    (Sm90VisitorImplBase 16 (xs ++ Sm90VisitorImplBase 16 ys :: zs))
    shape_37_64_96 (nested_args 16 xs ys zs args_xs args_ys args_zs)
    4096 tt None [] = (kError 7, [4096; 4112; 4144]).
Proof. vm_compute. split; reflexivity. Qed.

(** ** An instance of the topological visitor as a tree

    Three logging nodes, the last reading both of the others; fragments are
    converted by the identity. *)

Lemma topological_visit_as_tree_witness :
  let NodeOp := logging_node 2 1 in
  let ChildOps := [logging_node 0 1; logging_node 1 2] in
  (forall frg : Fragment, (fun frg => frg) frg = frg) /\
  Sm90TopologicalVisitor_visit [] (fun frg => frg)
    (repeat [] (length ChildOps) ++ [seq 0 (length ChildOps)])
    (ChildOps ++ [NodeOp]) [1; 2]%Z 0%Z 0%Z 0%Z [] =
  Sm90TreeVisitor_visit NodeOp ChildOps [1; 2]%Z 0%Z 0%Z 0%Z [].
Proof.
  intros NodeOp ChildOps.
  assert (Hid : forall frg : Fragment, (fun frg => frg) frg = frg)
    by (intro frg; reflexivity).
  split; [exact Hid|].
  exact (topological_visit_as_tree Fragment [] (fun frg => frg) VisitLog NodeOp
           ChildOps [1; 2]%Z 0%Z 0%Z 0%Z [] Hid).
Defined.

(** ** Instances for the grouped GEMM example

    A linear congruential generator stands for [rand()]; the elements of A
    have eight bits; the packed strides are kept as the extents they are
    made from. *)

Definition lcg_rand (state : Z) : Z * Z :=
  let next := ((state * 1103515245 + 12345) mod 2 ^ 31)%Z in (next, next).

Definition packed_extents (extents : Z * Z * Z) : Z * Z * Z := extents.

Definition no_allocations : Allocations (Z * Z * Z) (Z * Z * Z) (Z * Z * Z) (Z * Z * Z) := {|
  offset_A := []; offset_B := []; offset_C := []; offset_D := [];
  stride_A_host := []; stride_B_host := []; stride_C_host := []; stride_D_host := [];
  block_A := 0; block_B := 0; block_C := 0; block_D := 0; block_ref_D := 0;
  block_alpha := 0; block_beta := 0
|}.

Lemma lcg_rand_in_range : rand_in_range Z lcg_rand.
Proof. intro r. simpl. apply Z.mod_pos_bound. lia. Qed.

Lemma no_allocations_fresh :
  fresh (Z * Z * Z) (Z * Z * Z) (Z * Z * Z) (Z * Z * Z) no_allocations.
Proof. repeat split. Qed.

Lemma randomize_problems_extents_witness :
  let cmd := {| flag_m := Some 256%Z; flag_n := None; flag_k := None |} in
  rand_in_range Z lcg_rand /\
  (1 <= 8 <= 128)%Z /\
  (0 <= 3)%Z /\
  exists added r',
    randomize_problems Z lcg_rand 8 cmd 3 [] 1%Z = Returns ([] ++ added, r') /\
    Forall (problem_ok 8 cmd) added.
Proof.
  intro cmd.
  assert (Hbits : (1 <= 8 <= 128)%Z) by lia.
  assert (Hgroups : (0 <= 3)%Z) by lia.
  split; [exact lcg_rand_in_range|]. split; [exact Hbits|]. split; [exact Hgroups|].
  exact (randomize_problems_extents Z lcg_rand 8 cmd 3 [] 1%Z lcg_rand_in_range
           Hbits Hgroups).
Defined.

Lemma allocate_blocks_packed_witness :
  let problems := [(128, 256, 64); (16, 48, 32); (512, 16, 1024)]%Z in
  fresh (Z * Z * Z) (Z * Z * Z) (Z * Z * Z) (Z * Z * Z) no_allocations /\
  (0 <= 2 < 2 ^ 31)%Z /\
  (2 <= Z.of_nat (length problems))%Z /\
  Forall products_fit problems /\
  exists a',
    allocate (Z * Z * Z) (Z * Z * Z) (Z * Z * Z) (Z * Z * Z)
      packed_extents packed_extents packed_extents packed_extents
      2 problems no_allocations = Returns a' /\
    blocks_packed (Z * Z * Z) (Z * Z * Z) (Z * Z * Z) (Z * Z * Z) 2 problems a'.
Proof.
  intro problems.
  assert (Hgroups : (0 <= 2 < 2 ^ 31)%Z) by lia.
  assert (Hlen : (2 <= Z.of_nat (length problems))%Z) by (simpl; lia).
  assert (Hfit : Forall products_fit problems)
    by (repeat constructor; simpl; lia).
  split; [exact no_allocations_fresh|]. split; [exact Hgroups|].
  split; [exact Hlen|]. split; [exact Hfit|].
  exact (allocate_blocks_packed (Z * Z * Z) (Z * Z * Z) (Z * Z * Z) (Z * Z * Z)
           packed_extents packed_extents packed_extents packed_extents
           2 problems no_allocations no_allocations_fresh Hgroups Hlen Hfit).
Defined.

Lemma allocate_throws_witness :
  (Z.of_nat (length (@nil UnderlyingProblemShape)) < 2)%Z /\
  allocate (Z * Z * Z) (Z * Z * Z) (Z * Z * Z) (Z * Z * Z)
    packed_extents packed_extents packed_extents packed_extents
    2 [] no_allocations = Throws out_of_range.
Proof.
  assert (Hlen : (Z.of_nat (length (@nil UnderlyingProblemShape)) < 2)%Z)
    by (simpl; lia).
  split; [exact Hlen|].
  exact (allocate_throws (Z * Z * Z) (Z * Z * Z) (Z * Z * Z) (Z * Z * Z)
           packed_extents packed_extents packed_extents packed_extents
           2 [] no_allocations Hlen).
Defined.

Lemma allocate_after_randomize_witness :
  let cmd := {| flag_m := Some 256%Z; flag_n := None; flag_k := None |} in
  let problems := [(256, 624, 640); (256, 336, 992)]%Z in
  rand_in_range Z lcg_rand /\
  (1 <= 8 <= 128)%Z /\
  flag_small (flag_m cmd) /\ flag_small (flag_n cmd) /\ flag_small (flag_k cmd) /\
  (0 <= 2 < 2 ^ 31)%Z /\
  fresh (Z * Z * Z) (Z * Z * Z) (Z * Z * Z) (Z * Z * Z) no_allocations /\
  randomize_problems Z lcg_rand 8 cmd 2 [] 1%Z = Returns (problems, 1147902781%Z) /\
  exists a',
    allocate (Z * Z * Z) (Z * Z * Z) (Z * Z * Z) (Z * Z * Z)
      packed_extents packed_extents packed_extents packed_extents
      2 problems no_allocations = Returns a' /\
    blocks_packed (Z * Z * Z) (Z * Z * Z) (Z * Z * Z) (Z * Z * Z) 2 problems a'.
Proof.
  intros cmd problems.
  assert (Hbits : (1 <= 8 <= 128)%Z) by lia.
  assert (Hm : flag_small (flag_m cmd)) by (simpl; lia).
  assert (Hn : flag_small (flag_n cmd)) by exact I.
  assert (Hk : flag_small (flag_k cmd)) by exact I.
  assert (Hgroups : (0 <= 2 < 2 ^ 31)%Z) by lia.
  assert (Hdraw : randomize_problems Z lcg_rand 8 cmd 2 [] 1%Z
                  = Returns (problems, 1147902781%Z)) by (vm_compute; reflexivity).
  split; [exact lcg_rand_in_range|]. split; [exact Hbits|].
  split; [exact Hm|]. split; [exact Hn|]. split; [exact Hk|].
  split; [exact Hgroups|]. split; [exact no_allocations_fresh|].
  split; [exact Hdraw|].
  exact (allocate_after_randomize Z lcg_rand 8
           (Z * Z * Z) (Z * Z * Z) (Z * Z * Z) (Z * Z * Z)
           packed_extents packed_extents packed_extents packed_extents
           cmd 2 1%Z 1147902781%Z problems no_allocations
           lcg_rand_in_range Hbits Hm Hn Hk Hgroups no_allocations_fresh Hdraw).
Defined.

(** ** An instance of the alignment assertion

    [Swizzle<3,4,3>] has [num_base = 4] and [swizzle_code = 0x3F0]; the
    address is 1024. *)

Lemma swizzle_alignment_assert_spec_witness :
  (0 <= 4 < 32)%Z /\
  (swizzle_alignment_assert 1024 4 1008 = true <->
   (1024 mod 2 ^ 4 = 0)%Z /\ Z.land 1024 1008 = 0%Z).
Proof.
  assert (Hbase : (0 <= 4 < 32)%Z) by lia.
  split; [exact Hbase|].
  exact (swizzle_alignment_assert_spec 1024 4 1008 Hbase).
Defined.
